(** * gboot: a firmware sender over TCP, verified against its specification

    The development embeds the two Go sources of the repository:
    - [src/gboot.go] (version 1.1.0, fixed destination host), module [V110];
    - [src/unnamed/part_000] (version 1.2.0, destination given on the command
      line and validated by [isValidIP]), module [V120].

    Programs are interaction trees over the events of the Go packages the
    code calls ([os], [net], [io], [fmt], [time], the progress bar); the
    endless [for { ... }] loops of the source are [ITree.iter].  An
    environment ([Env]) fixes how the operating system and the peer answer,
    a handler threads a [World] through the events and records every call
    in a log, and [exec] runs a tree against a world with a step budget. *)
From ITree Require Import ITree.

From Stdlib Require Import List ZArith Lia String Ascii Bool Arith.

From Stdlib Require Import DecimalString.

From Stdlib Require Strings.Byte.

Import ListNotations.

Import ITreeNotations.

Local Open Scope itree_scope.

Local Open Scope list_scope.

(* ===================================================================== *)
(** * Part I: definitions *)
(* ===================================================================== *)

(* ===================================================================== *)
(** ** Go values *)
(* ===================================================================== *)

Abbreviation byte := Byte.byte.

(** A Go [error] value: [None] is [nil]. *)
Inductive err : Type :=
| io_EOF
| io_ErrUnexpectedEOF
| err_other (msg : string).

Definition error : Type := option err.

Definition is_nil (e : error) : bool :=
  match e with None => true | Some _ => false end.

Definition is_EOF (e : error) : bool :=
  match e with Some io_EOF => true | _ => false end.

(** Numeric value of a byte, and the conversion [byte(x)] of an integer. *)
Definition byte_val (b : byte) : Z := Z.of_N (Byte.to_N b).

Definition byte_of_Z (z : Z) : byte :=
  match Byte.of_N (Z.to_N (z mod 256)%Z) with
  | Some b => b
  | None => Byte.x00
  end.

(** The conversion [uint32(x)]: wrap-around modulo 2^32. *)
Definition uint32 (z : Z) : Z := (z mod 2 ^ 32)%Z.

(** [^x] on a [uint32]. *)
Definition not32 (x : Z) : Z := Z.lxor x 0xFFFFFFFF.

(** [s[i:j]] on a slice, for [i <= j <= len(s)]. *)
Definition slice {A} (s : list A) (i j : nat) : list A :=
  firstn (j - i) (skipn i s).

(** [binary.BigEndian.PutUint32(b, v)]: the four bytes stored in [b]. *)
Definition PutUint32 (v : Z) : list byte :=
  [ byte_of_Z (Z.shiftr v 24); byte_of_Z (Z.shiftr v 16);
    byte_of_Z (Z.shiftr v 8); byte_of_Z v ].

(** [binary.BigEndian.Uint32(b)], the decoding a receiver applies. *)
Definition BigEndian_Uint32 (b : list byte) : Z :=
  match b with
  | [b0; b1; b2; b3] =>
      Z.lor (Z.lor (Z.lor (byte_val b3) (Z.shiftl (byte_val b2) 8))
                   (Z.shiftl (byte_val b1) 16))
            (Z.shiftl (byte_val b0) 24)
  | _ => 0
  end.

(* ===================================================================== *)
(** ** Package hash/crc32 of the Go standard library, and the CRC-32 of the standard *)
(* ===================================================================== *)

Module crc32.

(** [crc32.IEEE]: the reversed IEEE polynomial. *)
Definition IEEE : Z := 0xedb88320.

(** One turn of the inner loop of [simpleMakeTable]. *)
Definition table_step (poly crc : Z) : Z :=
  if (Z.land crc 1 =? 1)%Z
  then Z.lxor (Z.shiftr crc 1) poly
  else Z.shiftr crc 1.

(** [simpleMakeTable(poly)]: entry [i] is [i] shifted out eight times. *)
Definition simpleMakeTable (poly : Z) : list Z :=
  map (fun i => Nat.iter 8 (table_step poly) (Z.of_nat i)) (seq 0 256).

Definition IEEETable : list Z := Eval vm_compute in simpleMakeTable IEEE.

(** [simpleUpdate(crc, tab, p)]. *)
Definition update_byte (tab : list Z) (crc : Z) (v : byte) : Z :=
  Z.lxor (nth (Z.to_nat (Z.lxor (crc mod 256)%Z (byte_val v))) tab 0%Z)
         (Z.shiftr crc 8).

Definition simpleUpdate (crc : Z) (tab : list Z) (p : list byte) : Z :=
  let crc := not32 crc in
  let crc := fold_left (update_byte tab) p crc in
  not32 crc.

(** The [digest] behind [hash.Hash32]. *)
Record digest : Type := mkDigest { crc : Z; tab : list Z }.

Definition NewIEEE : digest := {| crc := 0; tab := IEEETable |}.

Definition Write (d : digest) (p : list byte) : digest :=
  {| crc := simpleUpdate (crc d) (tab d) p; tab := tab d |}.

Definition Sum32 (d : digest) : Z := crc d.

(** [crc32.ChecksumIEEE(data)]: the checksum of a whole byte sequence in
    one call. *)
Definition ChecksumIEEE (data : list byte) : Z :=
  simpleUpdate 0 IEEETable data.

End crc32.

(** The CRC-32 of the IEEE 802.3 standard, bit by bit (reflected form):
    register preset to all ones, each byte xored into the low end and
    shifted out through the polynomial, final complement. *)
Module CRC32_IEEE.

Definition shift_bit (c : Z) : Z :=
  if Z.odd c then Z.lxor (Z.shiftr c 1) 0xEDB88320 else Z.shiftr c 1.

Definition shift_byte (c : Z) (b : byte) : Z :=
  Nat.iter 8 shift_bit (Z.lxor c (byte_val b)).

Definition checksum (data : list byte) : Z :=
  Z.lxor (fold_left shift_byte data 0xFFFFFFFF%Z) 0xFFFFFFFF.

End CRC32_IEEE.

(* ===================================================================== *)
(** ** Package regexp of the Go standard library, for patterns without stars *)
(* ===================================================================== *)

(** The syntax tree of a pattern.  Go strings are byte strings; every
    character class of the source is within ASCII, so matching byte by byte
    is matching rune by rune. *)
Inductive regex : Type :=
| BeginText                       (* ^ *)
| EndText                         (* $ *)
| Lit (c : ascii)                 (* a literal character *)
| Range (lo hi : ascii)           (* [lo-hi] *)
| Cat (r1 r2 : regex)             (* r1 r2 *)
| Alt (r1 r2 : regex)             (* r1|r2 *)
| Quest (r : regex)               (* r? *)
| Repeat (n : nat) (r : regex).   (* r{n} *)

(** [a] is in the class [[lo-hi]]. *)
Definition in_range (lo hi a : ascii) : bool :=
  Nat.leb (nat_of_ascii lo) (nat_of_ascii a) && Nat.leb (nat_of_ascii a) (nat_of_ascii hi).

(** [accept r pos s k]: some match of [r] at the front of [s], which
    starts at offset [pos] of the text, leaves an offset and a rest that
    [k] accepts.  [^] holds at offset 0 only and [$] before the end of the
    text only (no flag [m] in the source). *)
Fixpoint accept (r : regex) (pos : nat) (s : string) (k : nat -> string -> bool) : bool :=
  match r with
  | BeginText => Nat.eqb pos 0 && k pos s
  | EndText => match s with EmptyString => k pos s | String _ _ => false end
  | Lit c => match s with
             | String a s' => Ascii.eqb a c && k (S pos) s'
             | EmptyString => false
             end
  | Range lo hi => match s with
                   | String a s' => in_range lo hi a && k (S pos) s'
                   | EmptyString => false
                   end
  | Cat r1 r2 => accept r1 pos s (fun pos' s' => accept r2 pos' s' k)
  | Alt r1 r2 => accept r1 pos s k || accept r2 pos s k
  | Quest r1 => accept r1 pos s k || k pos s
  | Repeat n r1 =>
      (fix times (n : nat) (pos : nat) (s : string) : bool :=
         match n with
         | O => k pos s
         | S n' => accept r1 pos s (times n')
         end) n pos s
  end.

(** [re.MatchString(s)]: [s] contains a match of the pattern, starting
    at some offset. *)
Fixpoint search (r : regex) (pos : nat) (s : string) : bool :=
  accept r pos s (fun _ _ => true)
  || match s with
     | String _ s' => search r (S pos) s'
     | EmptyString => false
     end.

Definition MatchString (r : regex) (s : string) : bool := search r 0 s.

(* ===================================================================== *)
(** ** The calls the program makes, as events *)
(* ===================================================================== *)

(** An [*os.File] and a [net.Conn]; the [nil] values accompany an error. *)
Inductive File : Type := nilFile | openFile (name : string).

Inductive Conn : Type := nilConn | connTo (address : string).

(** An operand of [fmt.Printf] or [fmt.Println]. *)
Inductive Arg : Type :=
| ArgS (s : string)
| ArgI (n : Z)
| ArgE (e : error).

(** [time.Duration] counts nanoseconds. *)
Definition time_Second : Z := 1000000000.

(** One constructor per library call of the two sources; the result type
    is what the Go call returns.  A read returns the bytes it stored at the
    front of the buffer, so that [bytesRead] is their number. *)
Variant goE : Type -> Type :=
| os_ReadFile (name : string) : goE (list byte * error)
| os_Open (name : string) : goE (File * error)
| File_Read (f : File) (len : nat) : goE (list byte * error)
| File_Close (f : File) : goE error
| net_Dial (network address : string) : goE (Conn * error)
| Conn_Write (c : Conn) (b : list byte) : goE (nat * error)
| Conn_Close (c : Conn) : goE error
| io_ReadFull (c : Conn) (len : nat) : goE (list byte * error)
| time_Sleep (d : Z) : goE unit
| fmt_Printf (format : string) (a : list Arg) : goE unit
| fmt_Println (a : list Arg) : goE unit
| progressbar_NewOptions (max : nat) : goE unit
| progressbar_Add (num : nat) : goE unit
| os_Exit (code : Z) : goE Empty_set.

(** A logged call: the event, without its answer. *)
Definition LogEntry : Type := { X : Type & goE X }.

Definition call {X} (e : goE X) : LogEntry := existT goE X e.

(* ===================================================================== *)
(** ** The environment, the world, and running a tree *)
(* ===================================================================== *)

(** What one [file.Read] gives back: the bytes read and the error. *)
Definition ReadStep : Type := (list byte * error)%type.

(** The environment of one run: how the file system, the network and the
    peer behave.  It never changes during a run.
    - [files name] is the answer of [os.ReadFile name];
    - [opens name] is the answer of [os.Open name]: an error, or the
      answers of the successive [Read]s on the handle (after them, every
      [Read] reports end of file); Go never answers more bytes than the
      buffer holds, which nothing below depends on;
    - [dial_result k] is the answer to the [k]-th connection attempt;
    - [write_result k] is the answer to the [k]-th write on the connection;
    - [incoming] is the byte stream the peer sends over the whole run, and
      [incoming_end] what a read finds after it: an error ([Some]), or
      nothing at all, ever ([None]: the peer has stalled). *)
Record Env : Type := mkEnv {
  files : string -> list byte * error;
  opens : string -> err + list ReadStep;
  dial_result : nat -> error;
  write_result : nat -> error;
  incoming : list byte;
  incoming_end : option err
}.

Record World : Type := mkWorld {
  env : Env;
  reading : list ReadStep;   (* answers left for the open file *)
  dials : nat;               (* connection attempts made *)
  writes : nat;              (* writes made on the connection *)
  inbound : list byte;       (* bytes of the peer not read yet *)
  log : list LogEntry            (* every call made, oldest first *)
}.

Definition initial (v : Env) : World :=
  {| env := v; reading := []; dials := 0; writes := 0;
     inbound := incoming v; log := [] |}.

Definition set_env (v : Env) (w : World) : World :=
  {| env := v; reading := reading w; dials := dials w; writes := writes w;
     inbound := inbound w; log := log w |}.

Definition set_reading (s : list ReadStep) (w : World) : World :=
  {| env := env w; reading := s; dials := dials w; writes := writes w;
     inbound := inbound w; log := log w |}.

Definition set_dials (n : nat) (w : World) : World :=
  {| env := env w; reading := reading w; dials := n; writes := writes w;
     inbound := inbound w; log := log w |}.

Definition set_writes (n : nat) (w : World) : World :=
  {| env := env w; reading := reading w; dials := dials w; writes := n;
     inbound := inbound w; log := log w |}.

Definition set_inbound (b : list byte) (w : World) : World :=
  {| env := env w; reading := reading w; dials := dials w; writes := writes w;
     inbound := b; log := log w |}.

Definition record (c : LogEntry) (w : World) : World :=
  {| env := env w; reading := reading w; dials := dials w; writes := writes w;
     inbound := inbound w; log := log w ++ [c] |}.

(** The answer of the world to a call: a value and the next world, or the
    call never returns ([os.Exit], or a read the peer never feeds). *)
Inductive Reply (X : Type) : Type :=
| Answer (x : X) (w : World)
| Exit (code : Z) (w : World)
| Block (w : World).

Arguments Answer {X}.

Arguments Exit {X}.

Arguments Block {X}.

(** [io.ReadFull(conn, buf)] with [len(buf) = len]: all [len] bytes, or an
    error once the stream ends ([io.EOF] when nothing at all was read,
    [io.ErrUnexpectedEOF] when the stream ends inside the buffer). *)
Definition read_full (len : nat) (w : World) : Reply (list byte * error) :=
  if len <=? List.length (inbound w) then
    Answer (firstn len (inbound w), None) (set_inbound (skipn len (inbound w)) w)
  else
    match incoming_end (env w) with
    | None => Block (set_inbound [] w)
    | Some e =>
        let e' := match e, inbound w with
                  | io_EOF, _ :: _ => io_ErrUnexpectedEOF
                  | _, _ => e
                  end in
        Answer (inbound w ++ repeat Byte.x00 (len - List.length (inbound w)), Some e')
               (set_inbound [] w)
    end.

Definition handle {X} (e : goE X) (w : World) : Reply X :=
  match e in goE X return Reply X with
  | os_ReadFile name => Answer (files (env w) name) w
  | os_Open name =>
      match opens (env w) name with
      | inl e => Answer (nilFile, Some e) w
      | inr answers => Answer (openFile name, None) (set_reading answers w)
      end
  | File_Read f len =>
      match reading w with
      | [] => Answer ([], Some io_EOF) w
      | r :: rest => Answer r (set_reading rest w)
      end
  | File_Close f => Answer None (set_reading [] w)
  | net_Dial network address =>
      match dial_result (env w) (dials w) with
      | None => Answer (connTo address, None) (set_dials (S (dials w)) w)
      | Some e => Answer (nilConn, Some e) (set_dials (S (dials w)) w)
      end
  | Conn_Write c b =>
      match write_result (env w) (writes w) with
      | None => Answer (List.length b, None) (set_writes (S (writes w)) w)
      | Some e => Answer (0, Some e) (set_writes (S (writes w)) w)
      end
  | Conn_Close c => Answer None w
  | io_ReadFull c len => read_full len w
  | time_Sleep d => Answer tt w
  | fmt_Printf format a => Answer tt w
  | fmt_Println a => Answer tt w
  | progressbar_NewOptions max => Answer tt w
  | progressbar_Add num => Answer tt w
  | os_Exit code => Exit code w
  end.

(** How a run ends. *)
Inductive Outcome (R : Type) : Type :=
| Returned (r : R) (w : World)   (* the function returned [r] *)
| Exited (code : Z) (w : World)  (* the process exited *)
| Stalled (w : World).           (* blocked for ever in a read *)

Arguments Returned {R}.

Arguments Exited {R}.

Arguments Stalled {R}.

Definition final {R} (o : Outcome R) : World :=
  match o with
  | Returned _ w => w
  | Exited _ w => w
  | Stalled w => w
  end.

(** [exec fuel t w] runs [t] from [w] for at most [fuel] steps; [None]
    means the budget ran out before the run ended.  Every call is logged
    before it is answered. *)
Fixpoint exec {R} (fuel : nat) (t : itree goE R) (w : World) : option (Outcome R) :=
  match fuel with
  | O => None
  | S fuel' =>
      match observe t with
      | RetF r => Some (Returned r w)
      | TauF t' => exec fuel' t' w
      | VisF e k =>
          match handle e (record (call e) w) with
          | Answer x w' => exec fuel' (k x) w'
          | Exit code w' => Some (Exited code w')
          | Block w' => Some (Stalled w')
          end
      end
  end.

(** [Runs t w o]: the run of [t] from [w] ends, with outcome [o]. *)
Definition Runs {R} (t : itree goE R) (w : World) (o : Outcome R) : Prop :=
  exists fuel, exec fuel t w = Some o.

(** [Diverges t w]: the run of [t] from [w] never ends. *)
Definition Diverges {R} (t : itree goE R) (w : World) : Prop :=
  forall fuel, exec fuel t w = None.

(** [step e w]: the call [e] is logged in [w] and answered. *)
Definition step {X} (e : goE X) (w : World) : Reply X :=
  handle e (record (call e) w).

Definition reply_world {X} (r : Reply X) : World :=
  match r with
  | Answer _ w => w
  | Exit _ w => w
  | Block w => w
  end.

(* ===================================================================== *)
(** ** The program *)
(* ===================================================================== *)

(** The newline of the Go string literals. *)
Definition nl : string := String (ascii_of_nat 10) EmptyString.

(** [fmt.Sprintf("%s:%d", host, port)]. *)
Definition Sprintf_host_port (host : string) (port : Z) : string :=
  (host ++ ":" ++ NilZero.string_of_int (Z.to_int port))%string.

(** Constants shared by both sources. *)
Definition SERVER_PORT : Z := 5000.

Definition BUFFER_SIZE : nat := 256.

Definition ACK_MSG : string := "ACK".

Definition CRC_OK_MSG : string := "CRC_OK".

(** [calculateCRC32], lines 25-48 of both sources (the text is the same).
    One turn of the loop goes on with the digest ([inl]) or leaves the loop
    ([inr]): by [break] with the digest, or by [return] with the values
    returned. *)
Definition calculateCRC32_read (file : File) (hash : crc32.digest)
  : itree goE (crc32.digest + (crc32.digest + Z * error)) :=
  '(chunk, err) <- ITree.trigger (File_Read file BUFFER_SIZE);;
  let bytesRead := List.length chunk in
  let hash := if 0 <? bytesRead then crc32.Write hash chunk else hash in
  if is_EOF err then Ret (inr (inl hash))
  else if negb (is_nil err) then Ret (inr (inr (0%Z, err)))
  else Ret (inl hash).

Definition calculateCRC32 (filePath : string) : itree goE (Z * error) :=
  '(file, err) <- ITree.trigger (os_Open filePath);;
  if negb (is_nil err) then Ret (0%Z, err)
  else
    (* defer file.Close() *)
    left <- ITree.iter (calculateCRC32_read file) crc32.NewIEEE;;
    let result := match left with
                  | inl hash => (crc32.Sum32 hash, None)
                  | inr returned => returned
                  end in
    _ <- ITree.trigger (File_Close file);;
    Ret result.

(** Lines 70-79 of [sendFirmware]: dial until it works. *)
Definition dial_once (host : string) (_ : unit) : itree goE (unit + Conn) :=
  '(conn, err) <- ITree.trigger (net_Dial "tcp" (Sprintf_host_port host SERVER_PORT));;
  if is_nil err then
    ITree.trigger (fmt_Printf ("Connected to %s:%d" ++ nl) [ArgS host; ArgI SERVER_PORT]);;
    Ret (inr conn)
  else
    ITree.trigger (fmt_Printf ("Connection failed: %v, retrying in 3 seconds..." ++ nl) [ArgE err]);;
    ITree.trigger (time_Sleep (3 * time_Second));;
    Ret (inl tt).

Definition dial_loop (host : string) : itree goE Conn :=
  ITree.iter (dial_once host) tt.

(** Lines 95-114 of [sendFirmware]: the chunk loop.  Its state is
    [(i, sentBytes)]; it ends with [true] when [i < firmwareSize] fails and
    with [false] when the function returns from inside the loop. *)
Definition send_chunk (conn : Conn) (firmwareData : list byte) (st : nat * nat)
  : itree goE (nat * nat + bool) :=
  let firmwareSize := List.length firmwareData in
  let '(i, sentBytes) := st in
  if i <? firmwareSize then
    let end_ := i + BUFFER_SIZE in
    let end_ := if firmwareSize <? end_ then firmwareSize else end_ in
    let chunk := slice firmwareData i end_ in
    _ <- ITree.trigger (Conn_Write conn chunk);;
    (* Wait for ACK *)
    '(ackBuffer, err) <- ITree.trigger (io_ReadFull conn (String.length ACK_MSG));;
    if negb (is_nil err) || negb (string_of_list_byte ackBuffer =? ACK_MSG)%string then
      ITree.trigger (fmt_Println [ArgS "Error: Transmission failed, incorrect ACK received"]);;
      Ret (inr false)
    else
      ITree.trigger (progressbar_Add (List.length chunk));;
      Ret (inl (i + BUFFER_SIZE, sentBytes + List.length chunk))
  else Ret (inr true).

Definition chunk_loop (conn : Conn) (firmwareData : list byte) (st : nat * nat)
  : itree goE bool :=
  ITree.iter (send_chunk conn firmwareData) st.

(** [src/gboot.go], version 1.1.0. *)
Module V110.

Definition VERSION : string := "1.1.0".
Definition SERVER_IP : string := "192.168.1.122".

Definition sendFirmware (firmwareFile : string) : itree goE unit :=
  (* Read firmware file *)
  '(firmwareData, err) <- ITree.trigger (os_ReadFile firmwareFile);;
  if negb (is_nil err) then
    ITree.trigger (fmt_Printf ("Error: Firmware file %s not found" ++ nl) [ArgS firmwareFile])
  else
    let firmwareSize := List.length firmwareData in
    ITree.trigger (fmt_Printf ("Sending firmware file: %s, size: %d bytes" ++ nl)
                              [ArgS firmwareFile; ArgI (Z.of_nat firmwareSize)]);;
    (* Compute CRC32 *)
    '(firmwareCRC32, err) <- calculateCRC32 firmwareFile;;
    if negb (is_nil err) then
      ITree.trigger (fmt_Println [ArgS "Error: Failed to compute CRC32:"; ArgE err])
    else
      ITree.trigger (fmt_Printf ("Computed firmware CRC32: 0x%08X" ++ nl) [ArgI firmwareCRC32]);;
      (* Connect to TCP server *)
      conn <- dial_loop SERVER_IP;;
      (* defer conn.Close() *)
      (* Send firmware size (4 bytes, network byte order) *)
      let sizeBuffer := PutUint32 (uint32 (Z.of_nat firmwareSize)) in
      _ <- ITree.trigger (Conn_Write conn sizeBuffer);;
      (* Initialize progress bar *)
      ITree.trigger (progressbar_NewOptions firmwareSize);;
      (* Send firmware data *)
      completed <- chunk_loop conn firmwareData (0, 0);;
      (if completed : bool then
         (* Send CRC32 checksum (4 bytes, network byte order) *)
         let crcBuffer := PutUint32 firmwareCRC32 in
         _ <- ITree.trigger (Conn_Write conn crcBuffer);;
         ITree.trigger (fmt_Printf ("Firmware upload completed. Sent CRC32: 0x%08X" ++ nl)
                                   [ArgI firmwareCRC32]);;
         (* Receive CRC verification response from the server *)
         '(crcResponse, err) <- ITree.trigger (io_ReadFull conn (String.length CRC_OK_MSG));;
         if negb (is_nil err) || negb (string_of_list_byte crcResponse =? CRC_OK_MSG)%string then
           ITree.trigger (fmt_Println [ArgS "Error: CRC32 verification failed, firmware might be corrupted!"])
         else
           ITree.trigger (fmt_Println [ArgS "Success: CRC32 verification passed, firmware transfer complete."])
       else Ret tt);;
      _ <- ITree.trigger (Conn_Close conn);;
      Ret tt.

Definition main (Args : list string) : itree goE unit :=
  (if List.length Args <? 2 then
     ITree.trigger (fmt_Println [ArgS "Usage: firmware_sender <firmware_file>"]);;
     ITree.trigger (fmt_Println [ArgS "       firmware_sender version  or  firmware_sender -v  (to check version)"]);;
     absurd <- ITree.trigger (os_Exit 1);;
     match absurd : Empty_set with end
   else Ret tt);;
  let arg := nth 1 Args ""%string in
  if (arg =? "version")%string || (arg =? "-v")%string then
    ITree.trigger (fmt_Printf ("Firmware Sender Version: %s" ++ nl) [ArgS VERSION])
  else
    sendFirmware arg.

End V110.

(** [src/unnamed/part_000], version 1.2.0. *)
Module V120.

Definition VERSION : string := "1.2.0".

(** The pattern of [isValidIP], as [regexp.MustCompile] parses it:
    [^((25[0-5]|2[0-4][0-9]|[01]?[0-9][0-9]?)\.){3}(25[0-5]|2[0-4][0-9]|[01]?[0-9][0-9]?)$]. *)
Definition octet_re : regex :=
  Alt (Cat (Lit "2") (Cat (Lit "5") (Range "0" "5")))
      (Alt (Cat (Lit "2") (Cat (Range "0" "4") (Range "0" "9")))
           (Cat (Quest (Range "0" "1")) (Cat (Range "0" "9") (Quest (Range "0" "9"))))).

Definition ip_re : regex :=
  Cat BeginText (Cat (Repeat 3 (Cat octet_re (Lit "."))) (Cat octet_re EndText)).

Definition isValidIP (ip : string) : bool := MatchString ip_re ip.

Definition sendFirmware (firmwareFile serverIP : string) : itree goE unit :=
  (* Read firmware file *)
  '(firmwareData, err) <- ITree.trigger (os_ReadFile firmwareFile);;
  if negb (is_nil err) then
    ITree.trigger (fmt_Printf ("Error: Firmware file %s not found" ++ nl) [ArgS firmwareFile])
  else
    let firmwareSize := List.length firmwareData in
    ITree.trigger (fmt_Printf ("Sending firmware file: %s, size: %d bytes" ++ nl)
                              [ArgS firmwareFile; ArgI (Z.of_nat firmwareSize)]);;
    (* Compute CRC32 *)
    '(firmwareCRC32, err) <- calculateCRC32 firmwareFile;;
    if negb (is_nil err) then
      ITree.trigger (fmt_Println [ArgS "Error: Failed to compute CRC32:"; ArgE err])
    else
      ITree.trigger (fmt_Printf ("Computed firmware CRC32: 0x%08X" ++ nl) [ArgI firmwareCRC32]);;
      (* Connect to TCP server *)
      conn <- dial_loop serverIP;;
      (* defer conn.Close() *)
      (* Send firmware size (4 bytes, network byte order) *)
      let sizeBuffer := PutUint32 (uint32 (Z.of_nat firmwareSize)) in
      _ <- ITree.trigger (Conn_Write conn sizeBuffer);;
      (* Initialize progress bar *)
      ITree.trigger (progressbar_NewOptions firmwareSize);;
      (* Send firmware data *)
      completed <- chunk_loop conn firmwareData (0, 0);;
      (if completed : bool then
         (* Send CRC32 checksum (4 bytes, network byte order) *)
         let crcBuffer := PutUint32 firmwareCRC32 in
         _ <- ITree.trigger (Conn_Write conn crcBuffer);;
         ITree.trigger (fmt_Printf ("Firmware upload completed. Sent CRC32: 0x%08X" ++ nl)
                                   [ArgI firmwareCRC32]);;
         (* Receive CRC verification response from the server *)
         '(crcResponse, err) <- ITree.trigger (io_ReadFull conn (String.length CRC_OK_MSG));;
         if negb (is_nil err) || negb (string_of_list_byte crcResponse =? CRC_OK_MSG)%string then
           ITree.trigger (fmt_Printf nl []);;
           ITree.trigger (fmt_Printf ("Error: CRC32 verification failed, firmware might be corrupted!" ++ nl) [])
         else
           ITree.trigger (fmt_Printf nl []);;
           ITree.trigger (fmt_Printf ("Success: CRC32 verification passed, firmware transfer complete." ++ nl) [])
       else Ret tt);;
      _ <- ITree.trigger (Conn_Close conn);;
      Ret tt.

Definition main (Args : list string) : itree goE unit :=
  (* First check for version flag *)
  (if List.length Args <? 2 then
     ITree.trigger (fmt_Println [ArgS "Usage: gboot <firmware_file> <server_ip>"]);;
     ITree.trigger (fmt_Println [ArgS "       gboot version  or  gboot -v  (to check version)"]);;
     absurd <- ITree.trigger (os_Exit 1);;
     match absurd : Empty_set with end
   else Ret tt);;
  let arg := nth 1 Args ""%string in
  (* Check if the argument is 'version' or '-v' *)
  if (arg =? "version")%string || (arg =? "-v")%string then
    ITree.trigger (fmt_Printf ("Firmware Sender Version: %s" ++ nl) [ArgS VERSION])
  else
    (* Check if the argument is a firmware file and IP address *)
    (if List.length Args <? 3 then
       ITree.trigger (fmt_Println [ArgS "Usage: gboot <firmware_file> <server_ip>"]);;
       absurd <- ITree.trigger (os_Exit 1);;
       match absurd : Empty_set with end
     else Ret tt);;
    (* Validate IP address *)
    let serverIP := nth 2 Args ""%string in
    (if negb (isValidIP serverIP) then
       ITree.trigger (fmt_Printf ("Error: Invalid IP address format: %s" ++ nl) [ArgS serverIP]);;
       absurd <- ITree.trigger (os_Exit 1);;
       match absurd : Empty_set with end
     else Ret tt);;
    (* Send the firmware *)
    sendFirmware arg serverIP.

End V120.

(* ===================================================================== *)
(** ** Reading the log *)
(* ===================================================================== *)

(** Payloads written to the connection, lengths asked of [io.ReadFull],
    and durations slept, each in the order of the calls. *)
Definition writes_of (l : list LogEntry) : list (list byte) :=
  flat_map (fun c => match projT2 c with Conn_Write _ b => [b] | _ => [] end) l.

Definition reads_of (l : list LogEntry) : list nat :=
  flat_map (fun c => match projT2 c with io_ReadFull _ n => [n] | _ => [] end) l.

Definition sleeps_of (l : list LogEntry) : list Z :=
  flat_map (fun c => match projT2 c with time_Sleep d => [d] | _ => [] end) l.

Definition is_Dial (c : LogEntry) : bool :=
  match projT2 c with net_Dial _ _ => true | _ => false end.

Definition is_ReadFile (c : LogEntry) : bool :=
  match projT2 c with os_ReadFile _ => true | _ => false end.

Definition is_Open (c : LogEntry) : bool :=
  match projT2 c with os_Open _ => true | _ => false end.

(** Calls of package [net] and on the connection. *)
Definition is_net (c : LogEntry) : bool :=
  match projT2 c with
  | net_Dial _ _ | Conn_Write _ _ | Conn_Close _ | io_ReadFull _ _ => true
  | _ => false
  end.

Definition count (p : LogEntry -> bool) (l : list LogEntry) : nat :=
  List.length (filter p l).

(* ===================================================================== *)
(** ** The vocabulary of the claims *)
(* ===================================================================== *)

(** What the successive reads of a file deliver: the content up to the
    end of the file, and the error that cut the reading short, if any. *)
Fixpoint stream_of (answers : list ReadStep) : list byte * error :=
  match answers with
  | [] => ([], None)
  | (b, None) :: rest => let (c, e) := stream_of rest in (b ++ c, e)
  | (b, Some io_EOF) :: _ => (b, None)
  | (b, Some e) :: _ => (b, Some e)
  end.

(** The values [calculateCRC32] returns on a file that opens. *)
Definition checksum_of (answers : list ReadStep) : Z * error :=
  match stream_of answers with
  | (content, None) => (crc32.ChecksumIEEE content, None)
  | (_, Some e) => (0%Z, Some e)
  end.

Definition dial_address (host : string) : string := Sprintf_host_port host SERVER_PORT.

(** [connects_at answers from n]: the attempts [from .. from + n - 1] fail
    and attempt [from + n] connects. *)
Fixpoint connects_at (answers : nat -> error) (from n : nat) : bool :=
  match n with
  | O => is_nil (answers from)
  | S n' => negb (is_nil (answers from)) && connects_at answers (S from) n'
  end.

(** The chunk the loop cuts at offset [i], and the chunks it cuts from
    offset [i] on ([fuel] bounds the number of turns). *)
Definition chunk_at (data : list byte) (i : nat) : list byte :=
  slice data i (Nat.min (i + BUFFER_SIZE) (List.length data)).

Fixpoint chunks_from (data : list byte) (i fuel : nat) : list (list byte) :=
  match fuel with
  | O => []
  | S fuel' =>
      if i <? List.length data
      then chunk_at data i :: chunks_from data (i + BUFFER_SIZE) fuel'
      else []
  end.

Definition chunks (data : list byte) : list (list byte) :=
  chunks_from data 0 (List.length data).

Definition transmission_failed : LogEntry :=
  call (fmt_Println [ArgS "Error: Transmission failed, incorrect ACK received"]).

(** [ceil(s / BUFFER_SIZE)]. *)
Definition chunk_count (s : nat) : nat := (s + (BUFFER_SIZE - 1)) / BUFFER_SIZE.

Definition ACK : list byte := list_byte_of_string ACK_MSG.

Definition CRC_OK : list byte := list_byte_of_string CRC_OK_MSG.

(** [n] acknowledgments in a row, as the peer sends them. *)
Fixpoint acks (n : nat) : list byte :=
  match n with
  | O => []
  | S n' => ACK ++ acks n'
  end.

(** What the peer's next bytes do to a read of [n] bytes that expects the
    token [tok]: the read never returns, or it is refused (an error or other
    bytes), or it delivers the token. *)
Definition stalls (v : Env) (n : nat) (next : list byte) : bool :=
  (List.length next <? n) && negb (match incoming_end v with Some _ => true | None => false end).

Definition delivers (tok : string) (next : list byte) : bool :=
  (String.length tok <=? List.length next)
  && (string_of_list_byte (firstn (String.length tok) next) =? tok)%string.

Definition refuses (v : Env) (tok : string) (next : list byte) : bool :=
  negb (stalls v (String.length tok) next) && negb (delivers tok next).

(** The lines [sendFirmware] prints. *)
Definition said_not_found (firmwareFile : string) : LogEntry :=
  call (fmt_Printf ("Error: Firmware file %s not found" ++ nl) [ArgS firmwareFile]).

Definition said_sending (firmwareFile : string) (firmwareSize : nat) : LogEntry :=
  call (fmt_Printf ("Sending firmware file: %s, size: %d bytes" ++ nl)
                   [ArgS firmwareFile; ArgI (Z.of_nat firmwareSize)]).

Definition said_crc_error (e : error) : LogEntry :=
  call (fmt_Println [ArgS "Error: Failed to compute CRC32:"; ArgE e]).

Definition said_crc (firmwareCRC32 : Z) : LogEntry :=
  call (fmt_Printf ("Computed firmware CRC32: 0x%08X" ++ nl) [ArgI firmwareCRC32]).

Definition said_completed (firmwareCRC32 : Z) : LogEntry :=
  call (fmt_Printf ("Firmware upload completed. Sent CRC32: 0x%08X" ++ nl) [ArgI firmwareCRC32]).

Definition verification_failed : LogEntry :=
  call (fmt_Println [ArgS "Error: CRC32 verification failed, firmware might be corrupted!"]).

Definition verification_passed : LogEntry :=
  call (fmt_Println [ArgS "Success: CRC32 verification passed, firmware transfer complete."]).

(** The size header of an image. *)
Definition size_header (firmwareData : list byte) : list byte :=
  PutUint32 (uint32 (Z.of_nat (List.length firmwareData))).

(** The reads of a file cut into blocks of [BUFFER_SIZE] bytes, and the
    single read of the whole file. *)
Definition block_reads (content : list byte) : list ReadStep :=
  map (fun b => (b, None)) (chunks content).

Definition single_read (content : list byte) : list ReadStep := [(content, None)].

(** [os.ReadFile] fails on the path; [calculateCRC32] returns an error
    (the file does not open, or a read fails before the end of file). *)
Definition load_fails (v : Env) (firmwareFile : string) : bool :=
  negb (is_nil (snd (files v firmwareFile))).

Definition checksum_fails (v : Env) (firmwareFile : string) : bool :=
  match opens v firmwareFile with
  | inl _ => true
  | inr answers => negb (is_nil (snd (checksum_of answers)))
  end.

(** The connection of version 1.1.0. *)
Definition V110_conn : Conn := connTo (dial_address V110.SERVER_IP).

(** The payloads a complete transfer writes, in order. *)
Definition all_payloads (firmwareData : list byte) (firmwareCRC32 : Z) : list (list byte) :=
  size_header firmwareData :: chunks firmwareData ++ [PutUint32 firmwareCRC32].

(** The same environment, with other results for the writes. *)
Definition with_write_result (wr : nat -> error) (v : Env) : Env :=
  {| files := files v; opens := opens v; dial_result := dial_result v;
     write_result := wr; incoming := incoming v; incoming_end := incoming_end v |}.

Definition outcome_map {R} (g : World -> World) (o : Outcome R) : Outcome R :=
  match o with
  | Returned r w => Returned r (g w)
  | Exited c w => Exited c (g w)
  | Stalled w => Stalled (g w)
  end.

(** A dotted quad in the words of the specification, with no regular
    expression: four decimal numbers between 0 and 255, of one to three
    digits each, separated by dots.  [fields] splits a text at its dots. *)
Definition is_digit (c : ascii) : bool := in_range "0" "9" c.

Definition digit_value (c : ascii) : nat := nat_of_ascii c - 48.

Definition decimal_value (s : string) : nat :=
  fold_left (fun n c => 10 * n + digit_value c) (list_ascii_of_string s) 0.

Definition octet_text (s : string) : bool :=
  Nat.leb 1 (String.length s) && Nat.leb (String.length s) 3
  && forallb is_digit (list_ascii_of_string s)
  && Nat.leb (decimal_value s) 255.

Fixpoint fields (s : string) : list string :=
  match s with
  | EmptyString => [EmptyString]
  | String c s' =>
      if Ascii.eqb c "." then EmptyString :: fields s'
      else match fields s' with
           | f :: fs => String c f :: fs
           | [] => [String c EmptyString]
           end
  end.

Definition dotted_quad (s : string) : bool :=
  match fields s with
  | [a; b; c; d] => octet_text a && octet_text b && octet_text c && octet_text d
  | _ => false
  end.

Definition said_invalid_address (serverIP : string) : LogEntry :=
  call (fmt_Printf ("Error: Invalid IP address format: %s" ++ nl)%string [ArgS serverIP]).

(* ===================================================================== *)
(** ** Runs in state-passing style *)
(* ===================================================================== *)

(** Number of [Read] calls the loop makes on these answers. *)
Fixpoint reads_made (answers : list ReadStep) : nat :=
  match answers with
  | [] => 1
  | (_, None) :: rest => S (reads_made rest)
  | (_, Some _) :: _ => 1
  end.

(** The calls of [calculateCRC32] on a file that opens, and the world once
    it is done. *)
Definition checksum_log (path : string) (answers : list ReadStep) : list LogEntry :=
  call (os_Open path)
  :: repeat (call (File_Read (openFile path) BUFFER_SIZE)) (reads_made answers)
  ++ [call (File_Close (openFile path))].

Definition after_checksum (path : string) (answers : list ReadStep) (w : World) : World :=
  {| env := env w; reading := []; dials := dials w; writes := writes w;
     inbound := inbound w;
     log := log w ++ checksum_log path answers |}.

(** The calls of one failed attempt, and of the attempt that connects. *)
Definition failed_attempt (host : string) (e : error) : list LogEntry :=
  [ call (net_Dial "tcp" (dial_address host));
    call (fmt_Printf ("Connection failed: %v, retrying in 3 seconds..." ++ nl) [ArgE e]);
    call (time_Sleep (3 * time_Second)) ].

Definition good_attempt (host : string) : list LogEntry :=
  [ call (net_Dial "tcp" (dial_address host));
    call (fmt_Printf ("Connected to %s:%d" ++ nl) [ArgS host; ArgI SERVER_PORT]) ].

Fixpoint dial_log (host : string) (answers : nat -> error) (from n : nat) : list LogEntry :=
  match n with
  | O => good_attempt host
  | S n' => failed_attempt host (answers from) ++ dial_log host answers (S from) n'
  end.

Definition after_dial (host : string) (n : nat) (w : World) : World :=
  {| env := env w; reading := reading w; dials := dials w + n + 1; writes := writes w;
     inbound := inbound w;
     log := log w ++ dial_log host (dial_result (env w)) (dials w) n |}.

(** The loop over the chunks still to send, in state-passing style: write,
    read the acknowledgment, stop at the first one that is refused. *)
Fixpoint chunks_run (conn : Conn) (cs : list (list byte)) (w : World) : Outcome bool :=
  match cs with
  | [] => Returned true w
  | chunk :: rest =>
      match step (Conn_Write conn chunk) w with
      | Answer _ w1 =>
          match step (io_ReadFull conn (String.length ACK_MSG)) w1 with
          | Answer (ackBuffer, err) w2 =>
              if negb (is_nil err) || negb (string_of_list_byte ackBuffer =? ACK_MSG)%string
              then Returned false (record transmission_failed w2)
              else chunks_run conn rest
                     (record (call (progressbar_Add (List.length chunk))) w2)
          | Exit c w2 => Exited c w2
          | Block w2 => Stalled w2
          end
      | Exit c w1 => Exited c w1
      | Block w1 => Stalled w1
      end
  end.

(** The calls of the loop for chunks that are all acknowledged. *)
Definition acked_chunk (conn : Conn) (chunk : list byte) : list LogEntry :=
  [ call (Conn_Write conn chunk);
    call (io_ReadFull conn (String.length ACK_MSG));
    call (progressbar_Add (List.length chunk)) ].

Definition chunk_log (conn : Conn) (cs : list (list byte)) : list LogEntry :=
  flat_map (acked_chunk conn) cs.

(** Whatever the peer sends, the loop ends in one of three ways. *)
Inductive chunks_end (conn : Conn) (cs : list (list byte)) (w : World)
  : Outcome bool -> Prop :=
| all_acked w' :
    log w' = log w ++ chunk_log conn cs ->
    chunks_end conn cs w (Returned true w')
| ack_refused j c w' :
    nth_error cs j = Some c ->
    log w' = log w ++ chunk_log conn (firstn j cs)
                   ++ [ call (Conn_Write conn c);
                        call (io_ReadFull conn (String.length ACK_MSG));
                        transmission_failed ] ->
    chunks_end conn cs w (Returned false w')
| ack_stalled j c w' :
    nth_error cs j = Some c ->
    log w' = log w ++ chunk_log conn (firstn j cs)
                   ++ [ call (Conn_Write conn c);
                        call (io_ReadFull conn (String.length ACK_MSG)) ] ->
    chunks_end conn cs w (Stalled w').

(** Lines 116-129 in state-passing style: the checksum and its answer. *)
Definition verification_run (conn : Conn) (firmwareCRC32 : Z) (w : World) : Outcome unit :=
  match step (Conn_Write conn (PutUint32 firmwareCRC32)) w with
  | Answer _ w1 =>
      match step (io_ReadFull conn (String.length CRC_OK_MSG))
                 (record (said_completed firmwareCRC32) w1) with
      | Answer (crcResponse, err) w2 =>
          if negb (is_nil err) || negb (string_of_list_byte crcResponse =? CRC_OK_MSG)%string
          then Returned tt (record verification_failed w2)
          else Returned tt (record verification_passed w2)
      | Exit c w2 => Exited c w2
      | Block w2 => Stalled w2
      end
  | Exit c w1 => Exited c w1
  | Block w1 => Stalled w1
  end.

(** Lines 82-129 and the deferred close, in state-passing style. *)
Definition transfer_run (conn : Conn) (firmwareData : list byte) (firmwareCRC32 : Z)
           (w : World) : Outcome unit :=
  match step (Conn_Write conn (size_header firmwareData)) w with
  | Answer _ w1 =>
      match chunks_run conn (chunks firmwareData)
                       (record (call (progressbar_NewOptions (List.length firmwareData))) w1) with
      | Returned true w2 =>
          match verification_run conn firmwareCRC32 w2 with
          | Returned _ w3 => Returned tt (record (call (Conn_Close conn)) w3)
          | o => o
          end
      | Returned false w2 => Returned tt (record (call (Conn_Close conn)) w2)
      | Exited c w2 => Exited c w2
      | Stalled w2 => Stalled w2
      end
  | Exit c w1 => Exited c w1
  | Block w1 => Stalled w1
  end.

(** The world when the input stage is over and dialing starts. *)
Definition after_input (firmwareFile : string) (firmwareData : list byte)
           (answers : list ReadStep) (firmwareCRC32 : Z) (w : World) : World :=
  record (said_crc firmwareCRC32)
    (after_checksum firmwareFile answers
       (record (said_sending firmwareFile (List.length firmwareData))
          (record (call (os_ReadFile firmwareFile)) w))).

Definition verification_calls (conn : Conn) (firmwareCRC32 : Z) : list LogEntry :=
  [ call (Conn_Write conn (PutUint32 firmwareCRC32));
    said_completed firmwareCRC32;
    call (io_ReadFull conn (String.length CRC_OK_MSG)) ].

Definition header_calls (conn : Conn) (firmwareData : list byte) : list LogEntry :=
  [ call (Conn_Write conn (size_header firmwareData));
    call (progressbar_NewOptions (List.length firmwareData)) ].

Definition refused_chunk (conn : Conn) (chunk : list byte) : list LogEntry :=
  [ call (Conn_Write conn chunk);
    call (io_ReadFull conn (String.length ACK_MSG));
    transmission_failed ].

Definition unanswered_chunk (conn : Conn) (chunk : list byte) : list LogEntry :=
  [ call (Conn_Write conn chunk);
    call (io_ReadFull conn (String.length ACK_MSG)) ].

(** Whatever the peer does, the transfer ends in one of five ways. *)
Inductive transfer_end (conn : Conn) (data : list byte) (crc : Z) (w : World)
  : Outcome unit -> Prop :=
| end_verified w' :
    log w' = log w ++ header_calls conn data ++ chunk_log conn (chunks data)
                   ++ verification_calls conn crc
                   ++ [verification_passed; call (Conn_Close conn)] ->
    transfer_end conn data crc w (Returned tt w')
| end_not_verified w' :
    log w' = log w ++ header_calls conn data ++ chunk_log conn (chunks data)
                   ++ verification_calls conn crc
                   ++ [verification_failed; call (Conn_Close conn)] ->
    transfer_end conn data crc w (Returned tt w')
| end_verification_stalled w' :
    log w' = log w ++ header_calls conn data ++ chunk_log conn (chunks data)
                   ++ verification_calls conn crc ->
    transfer_end conn data crc w (Stalled w')
| end_refused j c w' :
    nth_error (chunks data) j = Some c ->
    log w' = log w ++ header_calls conn data ++ chunk_log conn (firstn j (chunks data))
                   ++ refused_chunk conn c ++ [call (Conn_Close conn)] ->
    transfer_end conn data crc w (Returned tt w')
| end_stalled j c w' :
    nth_error (chunks data) j = Some c ->
    log w' = log w ++ header_calls conn data ++ chunk_log conn (firstn j (chunks data))
                   ++ unanswered_chunk conn c ->
    transfer_end conn data crc w (Stalled w').

(** The calls of the input stage of a run that gets to dial. *)
Definition input_log (firmwareFile : string) (firmwareData : list byte)
           (answers : list ReadStep) (firmwareCRC32 : Z) : list LogEntry :=
  [call (os_ReadFile firmwareFile); said_sending firmwareFile (List.length firmwareData)]
  ++ checksum_log firmwareFile answers ++ [said_crc firmwareCRC32].

Definition V110_connected (v : Env) (firmwareFile : string) (firmwareData : list byte)
           (answers : list ReadStep) (firmwareCRC32 : Z) (n : nat) : World :=
  after_dial V110.SERVER_IP n
    (after_input firmwareFile firmwareData answers firmwareCRC32 (initial v)).

(** What follows the read of the verification token. *)
Definition verdict_calls (conn : Conn) (v : Env) (next : list byte) : list LogEntry :=
  if delivers CRC_OK_MSG next then [verification_passed; call (Conn_Close conn)]
  else if stalls v (String.length CRC_OK_MSG) next then []
  else [verification_failed; call (Conn_Close conn)].

(** The calls of a run up to the moment the connection stands. *)
Definition prelude (v : Env) (firmwareFile : string) (firmwareData : list byte)
           (answers : list ReadStep) (firmwareCRC32 : Z) (n : nat) : list LogEntry :=
  input_log firmwareFile firmwareData answers firmwareCRC32
  ++ dial_log V110.SERVER_IP (dial_result v) 0 n.

Definition reply_map {X} (g : World -> World) (r : Reply X) : Reply X :=
  match r with
  | Answer x w => Answer x (g w)
  | Exit c w => Exit c (g w)
  | Block w => Block (g w)
  end.

(** What a pattern matches: [Matches r pos s1 s2] when [r] matches the
    text [s1] found at offset [pos], with [s2] after it. *)
Fixpoint Matches (r : regex) (pos : nat) (s1 s2 : string) : Prop :=
  match r with
  | BeginText => pos = 0 /\ s1 = EmptyString
  | EndText => s1 = EmptyString /\ s2 = EmptyString
  | Lit c => s1 = String c EmptyString
  | Range lo hi => exists a, s1 = String a EmptyString /\ in_range lo hi a = true
  | Cat r1 r2 =>
      exists u v, s1 = (u ++ v)%string /\ Matches r1 pos u (v ++ s2)%string
                  /\ Matches r2 (pos + String.length u) v s2
  | Alt r1 r2 => Matches r1 pos s1 s2 \/ Matches r2 pos s1 s2
  | Quest r1 => Matches r1 pos s1 s2 \/ s1 = EmptyString
  | Repeat n r1 =>
      (fix times (n : nat) (pos : nat) (s1 : string) : Prop :=
         match n with
         | O => s1 = EmptyString
         | S n' => exists u v, s1 = (u ++ v)%string /\ Matches r1 pos u (v ++ s2)%string
                               /\ times n' (pos + String.length u) v
         end) n pos s1
  end.

Definition dotted (a b c d : string) : string :=
  (a ++ "." ++ b ++ "." ++ c ++ "." ++ d)%string.

Definition dotless (s : string) : bool :=
  forallb (fun c => negb (Ascii.eqb c ".")) (list_ascii_of_string s).

(* ===================================================================== *)
(** ** Concrete images and environments *)
(* ===================================================================== *)

(** An image of exactly 2^32 zero bytes, in an environment that connects
    at once. *)
Definition image_4GiB : list byte := repeat Byte.x00 (Z.to_nat (2 ^ 32)).

Definition env_4GiB : Env :=
  {| files := fun _ => (image_4GiB, None);
     opens := fun _ => inr [];
     dial_result := fun _ => None;
     write_result := fun _ => None;
     incoming := [];
     incoming_end := Some io_EOF |}.

(** An image of 311 bytes, and an environment in which the file is read
    whole, then in blocks of 256 bytes, the third connection attempt
    succeeds and the peer answers as the protocol says. *)
Definition demo_image : list byte :=
  list_byte_of_string "firmware v2" ++ repeat Byte.x2a 300.

Definition no_such_file : err := err_other "open: no such file or directory".

Definition demo_env : Env :=
  {| files := fun name => if (name =? "firmware.bin")%string
                          then (demo_image, None) else ([], Some no_such_file);
     opens := fun name => if (name =? "firmware.bin")%string
                          then inr (block_reads demo_image) else inl no_such_file;
     dial_result := fun k => if k <? 2 then Some (err_other "connection refused") else None;
     write_result := fun _ => None;
     incoming := acks 2 ++ CRC_OK;
     incoming_end := Some io_EOF |}.

(** The same, except that the file has changed between the two reads: the
    checksum is computed on other bytes than the image that is sent. *)
Definition old_image : list byte :=
  list_byte_of_string "firmware v1" ++ repeat Byte.x2a 300.

Definition changed_file_env : Env :=
  {| files := files demo_env;
     opens := fun name => if (name =? "firmware.bin")%string
                          then inr (block_reads old_image) else inl no_such_file;
     dial_result := dial_result demo_env;
     write_result := write_result demo_env;
     incoming := incoming demo_env;
     incoming_end := incoming_end demo_env |}.

(** The checksum of [demo_image]. *)
Definition demo_crc : Z := crc32.ChecksumIEEE demo_image.

(** The peer acknowledges the first chunk and answers "NAK" to the
    second. *)
Definition nak_env : Env :=
  {| files := files demo_env; opens := opens demo_env;
     dial_result := dial_result demo_env; write_result := write_result demo_env;
     incoming := acks 1 ++ list_byte_of_string "NAK";
     incoming_end := Some io_EOF |}.

(** Every write on the connection fails. *)
Definition broken_pipe : nat -> error := fun _ => Some (err_other "write: broken pipe").

(** The outcome of the transfer in [demo_env], by running it. *)
Definition demo_outcome : Outcome unit :=
  match exec 100 (V110.sendFirmware "firmware.bin") (initial demo_env) with
  | Some o => o
  | None => Stalled (initial demo_env)
  end.

(* ===================================================================== *)
(** * Part II: lemmas and theorems *)
(* ===================================================================== *)

(* ===================================================================== *)
(** ** Facts about the checksum *)
(* ===================================================================== *)
Lemma not32_involutive (x : Z) : not32 (not32 x) = x.
Proof.
  unfold not32. rewrite Z.lxor_assoc, Z.lxor_nilpotent. apply Z.lxor_0_r.
Qed.

(** Two successive updates are one update of the concatenation. *)
Lemma simpleUpdate_app (c : Z) (t : list Z) (p q : list byte) :
  crc32.simpleUpdate (crc32.simpleUpdate c t p) t q = crc32.simpleUpdate c t (p ++ q).
Proof.
  unfold crc32.simpleUpdate.
  rewrite not32_involutive, fold_left_app. reflexivity.
Qed.

Lemma simpleUpdate_nil (c : Z) (t : list Z) : crc32.simpleUpdate c t [] = c.
Proof. unfold crc32.simpleUpdate. simpl. apply not32_involutive. Qed.

Lemma Write_app (d : crc32.digest) (p q : list byte) :
  crc32.Write (crc32.Write d p) q = crc32.Write d (p ++ q).
Proof. unfold crc32.Write. simpl. rewrite simpleUpdate_app. reflexivity. Qed.

Lemma Write_nil (d : crc32.digest) : crc32.Write d [] = d.
Proof. destruct d. unfold crc32.Write. simpl. rewrite simpleUpdate_nil. reflexivity. Qed.

Lemma Sum32_Write_NewIEEE (p : list byte) :
  crc32.Sum32 (crc32.Write crc32.NewIEEE p) = crc32.ChecksumIEEE p.
Proof. reflexivity. Qed.

Example ChecksumIEEE_check :
  crc32.ChecksumIEEE (list_byte_of_string "123456789") = 0xCBF43926%Z.
Proof. vm_compute. reflexivity. Qed.

(* ===================================================================== *)
(** ** Running trees: general facts *)
(* ===================================================================== *)
Section Running.

Context {R : Type}.

(** What a tree shows at its root decides how it runs. *)
Lemma exec_observe (n : nat) (t u : itree goE R) (w : World) :
  observe t = observe u -> exec n t w = exec n u w.
Proof. intros H. destruct n; simpl; [reflexivity|]. rewrite H. reflexivity. Qed.

Lemma exec_mono (n : nat) :
  forall (t : itree goE R) (w : World) (o : Outcome R) (m : nat),
    exec n t w = Some o -> n <= m -> exec m t w = Some o.
Proof.
  induction n as [|n IH]; intros t w o m H Hle; [discriminate|].
  destruct m as [|m]; [lia|].
  simpl in *. destruct (observe t) as [r|t'|X e k].
  - exact H.
  - apply IH; [exact H | lia].
  - destruct (handle e (record (call e) w)) as [x w'|c w'|w']; try exact H.
    apply IH; [exact H | lia].
Qed.

Lemma Runs_det (t : itree goE R) (w : World) (o1 o2 : Outcome R) :
  Runs t w o1 -> Runs t w o2 -> o1 = o2.
Proof.
  intros [n H1] [m H2].
  apply (exec_mono _ _ _ _ (n + m)) in H1; [|lia].
  apply (exec_mono _ _ _ _ (n + m)) in H2; [|lia].
  congruence.
Qed.

Lemma Runs_not_Diverges (t : itree goE R) (w : World) (o : Outcome R) :
  Runs t w o -> Diverges t w -> False.
Proof. intros [n H] D. rewrite D in H. discriminate. Qed.

Lemma Runs_observe (t u : itree goE R) (w : World) (o : Outcome R) :
  observe t = observe u -> Runs u w o -> Runs t w o.
Proof. intros H [n E]. exists n. rewrite (exec_observe n t u w H). exact E. Qed.

Lemma Runs_Ret (r : R) (w : World) : Runs (Ret r) w (Returned r w).
Proof. exists 1. reflexivity. Qed.

Lemma Runs_Tau (t : itree goE R) (w : World) (o : Outcome R) :
  Runs t w o -> Runs (Tau t) w o.
Proof. intros [n E]. exists (S n). exact E. Qed.

End Running.

Lemma observe_bind {R T} (t : itree goE R) (k : R -> itree goE T) :
  observe (ITree.bind t k) =
  observe (match observe t with
           | RetF r => k r
           | TauF t' => Tau (ITree.bind t' k)
           | VisF e h => Vis e (fun x => ITree.bind (h x) k)
           end).
Proof. reflexivity. Qed.

Lemma observe_iter {I R} (body : I -> itree goE (I + R)) (i : I) :
  observe (ITree.iter body i) =
  observe (ITree.bind (body i)
             (fun lr => match lr with
                        | inl l => Tau (ITree.iter body l)
                        | inr r => Ret r
                        end)).
Proof. reflexivity. Qed.

(** The step budget of a sequence splits between its two parts. *)
Lemma exec_bind_Returned {R T} (k : R -> itree goE T) (n : nat) :
  forall (t : itree goE R) (w : World) (r : R) (w1 : World) (m : nat) o,
    exec n t w = Some (Returned r w1) ->
    exec m (k r) w1 = Some o ->
    exec (n + m) (ITree.bind t k) w = Some o.
Proof.
  induction n as [|n IH]; intros t w r w1 m o H Hk; [discriminate|].
  change (S n + m) with (S (n + m)).
  simpl in H. cbn [exec]. rewrite observe_bind.
  destruct (observe t) as [r'|t'|X e h].
  - injection H as -> ->.
    change (exec (S (n + m)) (k r) w1 = Some o).
    apply (exec_mono m); [exact Hk | lia].
  - simpl. eapply IH; eassumption.
  - simpl. destruct (handle e (record (call e) w)) as [x w'|c w'|w']; try discriminate.
    eapply IH; eassumption.
Qed.

Lemma exec_bind_rest {R T} (k : R -> itree goE T) (n : nat) :
  forall (t : itree goE R) (w : World) (r : R) (w1 : World) o,
    exec n t w = Some (Returned r w1) ->
    exec n (ITree.bind t k) w = Some o ->
    exec n (k r) w1 = Some o.
Proof.
  induction n as [|n IH]; intros t w r w1 o H Hk; [discriminate|].
  simpl in H. cbn [exec] in Hk. rewrite observe_bind in Hk.
  destruct (observe t) as [r'|t'|X e h].
  - injection H as -> ->. exact Hk.
  - simpl in Hk. apply (exec_mono n); [|lia]. eapply IH; eassumption.
  - simpl in Hk.
    destruct (handle e (record (call e) w)) as [x w'|c w'|w']; try discriminate.
    apply (exec_mono n); [|lia]. eapply IH; eassumption.
Qed.

Lemma exec_bind_stop {R T} (k : R -> itree goE T) (n : nat) :
  forall (t : itree goE R) (w : World),
    exec n (ITree.bind t k) w =
    match exec n t w with
    | None => None
    | Some (Returned r w1) => exec n (ITree.bind t k) w
    | Some (Exited c w1) => Some (Exited c w1)
    | Some (Stalled w1) => Some (Stalled w1)
    end.
Proof.
  induction n as [|n IH]; intros t w; [reflexivity|].
  cbn [exec]. rewrite observe_bind.
  destruct (observe t) as [r'|t'|X e h]; simpl.
  - reflexivity.
  - apply IH.
  - destruct (handle e (record (call e) w)) as [x w'|c w'|w']; try reflexivity.
    apply IH.
Qed.

Lemma Runs_bind {R T} (t : itree goE R) (k : R -> itree goE T) w r w1 o :
  Runs t w (Returned r w1) -> Runs (k r) w1 o -> Runs (ITree.bind t k) w o.
Proof.
  intros [n H1] [m H2]. exists (n + m).
  exact (exec_bind_Returned k n t w r w1 m o H1 H2).
Qed.

Lemma Runs_bind_Exited {R T} (t : itree goE R) (k : R -> itree goE T) w c w1 :
  Runs t w (Exited c w1) -> Runs (ITree.bind t k) w (Exited c w1).
Proof. intros [n H]. exists n. rewrite exec_bind_stop, H. reflexivity. Qed.

Lemma Runs_bind_Stalled {R T} (t : itree goE R) (k : R -> itree goE T) w w1 :
  Runs t w (Stalled w1) -> Runs (ITree.bind t k) w (Stalled w1).
Proof. intros [n H]. exists n. rewrite exec_bind_stop, H. reflexivity. Qed.

(** A sequence that ends has a first part that ends. *)
Lemma Runs_bind_inv {R T} (t : itree goE R) (k : R -> itree goE T) w o :
  Runs (ITree.bind t k) w o ->
  (exists r w1, Runs t w (Returned r w1) /\ Runs (k r) w1 o)
  \/ (exists c w1, Runs t w (Exited c w1) /\ o = Exited c w1)
  \/ (exists w1, Runs t w (Stalled w1) /\ o = Stalled w1).
Proof.
  intros [n H].
  rewrite exec_bind_stop in H.
  destruct (exec n t w) as [[r w1|c w1|w1]|] eqn:E; try discriminate.
  - left. exists r, w1. split; [exists n; exact E|].
    exists n. exact (exec_bind_rest k n t w r w1 o E H).
  - right. left. exists c, w1. split; [exists n; exact E | congruence].
  - right. right. exists w1. split; [exists n; exact E | congruence].
Qed.

Lemma Diverges_bind {R T} (t : itree goE R) (k : R -> itree goE T) w :
  Diverges t w -> Diverges (ITree.bind t k) w.
Proof. intros D n. rewrite exec_bind_stop, D. reflexivity. Qed.

(** One call, then the rest. *)
Lemma exec_call {X R} (e : goE X) (k : X -> itree goE R) (n : nat) (w : World) :
  exec (S n) (ITree.bind (ITree.trigger e) k) w =
  match handle e (record (call e) w) with
  | Answer x w' => exec n (k x) w'
  | Exit c w' => Some (Exited c w')
  | Block w' => Some (Stalled w')
  end.
Proof.
  cbn [exec]. rewrite observe_bind. simpl.
  destruct (handle e (record (call e) w)) as [x w'|c w'|w']; try reflexivity.
  apply exec_observe. rewrite observe_bind. reflexivity.
Qed.

Lemma Runs_call {X R} (e : goE X) (k : X -> itree goE R) w x w' o :
  handle e (record (call e) w) = Answer x w' ->
  Runs (k x) w' o ->
  Runs (ITree.bind (ITree.trigger e) k) w o.
Proof. intros H [n E]. exists (S n). rewrite exec_call, H. exact E. Qed.

Lemma Runs_call_Block {X R} (e : goE X) (k : X -> itree goE R) w w' :
  handle e (record (call e) w) = Block w' ->
  Runs (ITree.bind (ITree.trigger e) k) w (Stalled w').
Proof. intros H. exists 1. rewrite exec_call, H. reflexivity. Qed.

Lemma Runs_call_Exit {X R} (e : goE X) (k : X -> itree goE R) w c w' :
  handle e (record (call e) w) = Exit c w' ->
  Runs (ITree.bind (ITree.trigger e) k) w (Exited c w').
Proof. intros H. exists 1. rewrite exec_call, H. reflexivity. Qed.

Lemma Runs_trigger {X} (e : goE X) w x w' :
  handle e (record (call e) w) = Answer x w' ->
  Runs (ITree.trigger e) w (Returned x w').
Proof. intros H. exists 2. simpl. rewrite H. reflexivity. Qed.

(** One turn of a loop. *)
Lemma Runs_iter_again {I R} (body : I -> itree goE (I + R)) i j w w1 o :
  Runs (body i) w (Returned (inl j) w1) ->
  Runs (ITree.iter body j) w1 o ->
  Runs (ITree.iter body i) w o.
Proof.
  intros H1 H2. eapply Runs_observe; [apply observe_iter|].
  eapply Runs_bind; [exact H1|]. apply Runs_Tau. exact H2.
Qed.

Lemma Runs_iter_done {I R} (body : I -> itree goE (I + R)) i (r : R) w w1 :
  Runs (body i) w (Returned (inr r) w1) ->
  Runs (ITree.iter body i) w (Returned r w1).
Proof.
  intros H1. eapply Runs_observe; [apply observe_iter|].
  eapply Runs_bind; [exact H1|]. apply Runs_Ret.
Qed.

Lemma Runs_iter_Stalled {I R} (body : I -> itree goE (I + R)) i w w1 :
  Runs (body i) w (Stalled w1) ->
  Runs (ITree.iter body i) w (Stalled (R := R) w1).
Proof.
  intros H1. eapply Runs_observe; [apply observe_iter|].
  apply Runs_bind_Stalled. exact H1.
Qed.

(* ===================================================================== *)
(** ** The world after a call *)
(* ===================================================================== *)
Lemma step_env {X} (e : goE X) (w : World) : env (reply_world (step e w)) = env w.
Proof.
  unfold step. destruct e; simpl; try reflexivity.
  - destruct (opens (env w) name); reflexivity.
  - destruct (reading w); reflexivity.
  - destruct (dial_result (env w) (dials w)); reflexivity.
  - destruct (write_result (env w) (writes w)); reflexivity.
  - unfold read_full. simpl.
    destruct (len <=? List.length (inbound w)); [reflexivity|].
    destruct (incoming_end (env w)); reflexivity.
Qed.

Lemma step_log {X} (e : goE X) (w : World) :
  log (reply_world (step e w)) = log w ++ [call e].
Proof.
  unfold step. destruct e; simpl; try reflexivity.
  - destruct (opens (env w) name); reflexivity.
  - destruct (reading w); reflexivity.
  - destruct (dial_result (env w) (dials w)); reflexivity.
  - destruct (write_result (env w) (writes w)); reflexivity.
  - unfold read_full. simpl.
    destruct (len <=? List.length (inbound w)); [reflexivity|].
    destruct (incoming_end (env w)); reflexivity.
Qed.

(** A run never changes the environment, and only ever adds to the log. *)
Lemma exec_env {R} (n : nat) :
  forall (t : itree goE R) (w : World) (o : Outcome R),
    exec n t w = Some o -> env (final o) = env w.
Proof.
  induction n as [|n IH]; intros t w o H; [discriminate|].
  simpl in H. destruct (observe t) as [r|t'|X e k].
  - injection H as <-. reflexivity.
  - apply IH in H. exact H.
  - pose proof (step_env e w) as He. unfold step in He.
    destruct (handle e (record (call e) w)) as [x w'|c w'|w']; simpl in He.
    + apply IH in H. congruence.
    + injection H as <-. exact He.
    + injection H as <-. exact He.
Qed.

Lemma exec_log {R} (n : nat) :
  forall (t : itree goE R) (w : World) (o : Outcome R),
    exec n t w = Some o -> exists l, log (final o) = log w ++ l.
Proof.
  induction n as [|n IH]; intros t w o H; [discriminate|].
  simpl in H. destruct (observe t) as [r|t'|X e k].
  - injection H as <-. exists []. simpl. rewrite app_nil_r. reflexivity.
  - apply IH in H. exact H.
  - pose proof (step_log e w) as He. unfold step in He.
    destruct (handle e (record (call e) w)) as [x w'|c w'|w']; simpl in He.
    + apply IH in H. destruct H as [l Hl]. exists (call e :: l).
      rewrite Hl, He, <- app_assoc. reflexivity.
    + injection H as <-. exists [call e]. exact He.
    + injection H as <-. exists [call e]. exact He.
Qed.

Lemma Runs_env {R} (t : itree goE R) w o : Runs t w o -> env (final o) = env w.
Proof. intros [n H]. exact (exec_env n t w o H). Qed.

Lemma Runs_log {R} (t : itree goE R) w o :
  Runs t w o -> exists l, log (final o) = log w ++ l.
Proof. intros [n H]. exact (exec_log n t w o H). Qed.

Lemma Runs_Ret_eq {R} (r r' : R) (w w' : World) :
  r = r' -> w = w' -> Runs (Ret r) w (Returned r' w').
Proof. intros -> ->. apply Runs_Ret. Qed.

(** Two descriptions of one world, up to the bracketing of its log. *)
Ltac same_world :=
  unfold set_env, set_reading, set_dials, set_writes, set_inbound, record;
  cbn [env reading dials writes inbound log];
  f_equal;
  repeat (rewrite <- app_assoc; cbn [app]);
  try reflexivity.

(* ===================================================================== *)
(** ** The checksum of a file: what [calculateCRC32] computes *)
(* ===================================================================== *)
Lemma Write_if_nonempty (hash : crc32.digest) (chunk : list byte) :
  (if 0 <? List.length chunk then crc32.Write hash chunk else hash) = crc32.Write hash chunk.
Proof.
  destruct chunk as [|b chunk]; simpl; [|reflexivity].
  symmetry. apply Write_nil.
Qed.

Lemma calculateCRC32_loop_Runs (file : File) (answers : list ReadStep) :
  forall (hash : crc32.digest) (w : World),
    reading w = answers ->
    exists left_ rest,
      Runs (ITree.iter (calculateCRC32_read file) hash) w
           (Returned left_
              {| env := env w; reading := rest; dials := dials w; writes := writes w;
                 inbound := inbound w;
                 log := log w ++ repeat (call (File_Read file BUFFER_SIZE)) (reads_made answers) |})
      /\ left_ = match stream_of answers with
                 | (content, None) => inl (crc32.Write hash content)
                 | (_, Some e) => inr (0%Z, Some e)
                 end.
Proof.
  induction answers as [|[b e] answers IH]; intros hash w Hw;
    destruct w as [v rd dl wr ib lg]; simpl in Hw; subst rd.
  - exists (inl hash), []. split; [|simpl; rewrite Write_nil; reflexivity].
    apply Runs_iter_done. unfold calculateCRC32_read.
    eapply Runs_call.
    + reflexivity.
    + simpl. apply Runs_Ret.
  - destruct e as [e|].
    + (* the read reports an error: end of file, or a failure *)
      exists (if is_EOF (Some e) then inl (crc32.Write hash b) else inr (0%Z, Some e)), answers.
      split; [|destruct e; reflexivity].
      apply Runs_iter_done. unfold calculateCRC32_read.
      eapply Runs_call.
      * reflexivity.
      * cbv beta iota zeta. rewrite Write_if_nonempty.
        destruct e; simpl; apply Runs_Ret.
    + (* a plain read: the loop goes on *)
      destruct (IH (crc32.Write hash b)
                   {| env := v; reading := answers; dials := dl;
                      writes := wr; inbound := ib;
                      log := lg ++ [call (File_Read file BUFFER_SIZE)] |}
                   eq_refl) as (left_ & rest & Hrun & Hleft).
      exists left_, rest. split.
      * eapply Runs_iter_again.
        -- unfold calculateCRC32_read. eapply Runs_call.
           ++ reflexivity.
           ++ cbv beta iota zeta. rewrite Write_if_nonempty. simpl. apply Runs_Ret.
        -- simpl in Hrun. rewrite <- app_assoc in Hrun. exact Hrun.
      * rewrite Hleft. simpl. destruct (stream_of answers) as [c [e'|]].
        -- reflexivity.
        -- rewrite Write_app. reflexivity.
Qed.

Lemma calculateCRC32_Runs (path : string) (answers : list ReadStep) (w : World) :
  opens (env w) path = inr answers ->
  Runs (calculateCRC32 path) w
       (Returned (checksum_of answers) (after_checksum path answers w)).
Proof.
  intros Hopen. unfold calculateCRC32.
  eapply Runs_call.
  { simpl. rewrite Hopen. reflexivity. }
  cbv beta iota zeta. simpl negb. cbv iota.
  destruct (calculateCRC32_loop_Runs (openFile path) answers crc32.NewIEEE
              (set_reading answers (record (call (os_Open path)) w)) eq_refl)
    as (left_ & rest & Hrun & Hleft).
  eapply Runs_bind; [exact Hrun|].
  eapply Runs_call; [reflexivity|].
  unfold after_checksum, checksum_log, checksum_of. simpl.
  rewrite <- app_assoc. simpl.
  replace (match left_ with inl hash => (crc32.Sum32 hash, None) | inr returned => returned end)
    with (let (content, e) := stream_of answers in
          match e with
          | Some e => (0%Z, Some e)
          | None => (crc32.ChecksumIEEE content, None)
          end).
  - apply Runs_Ret_eq; [reflexivity | same_world].
  - rewrite Hleft. destruct (stream_of answers) as [c [e|]]; reflexivity.
Qed.

Lemma calculateCRC32_Runs_no_file (path : string) (e : err) (w : World) :
  opens (env w) path = inl e ->
  Runs (calculateCRC32 path) w
       (Returned (0%Z, Some e) (record (call (os_Open path)) w)).
Proof.
  intros Hopen. unfold calculateCRC32.
  eapply Runs_call.
  { simpl. rewrite Hopen. reflexivity. }
  simpl. apply Runs_Ret.
Qed.

(* ===================================================================== *)
(** ** The connection loop *)
(* ===================================================================== *)
Lemma dial_loop_Runs (host : string) (n : nat) :
  forall w : World,
    connects_at (dial_result (env w)) (dials w) n = true ->
    Runs (dial_loop host) w (Returned (connTo (dial_address host)) (after_dial host n w)).
Proof.
  unfold dial_loop.
  induction n as [|n IH]; intros w H; destruct w as [v rd dl wr ib lg]; simpl in H.
  - apply Runs_iter_done. unfold dial_once.
    eapply Runs_call.
    { simpl. destruct (dial_result v dl); [discriminate|]. reflexivity. }
    cbv beta iota. simpl is_nil. cbv iota.
    eapply Runs_call; [reflexivity|].
    apply Runs_Ret_eq; [reflexivity|].
    unfold after_dial. same_world. lia.
  - apply andb_true_iff in H. destruct H as [Hfail Hrest].
    destruct (dial_result v dl) as [e|] eqn:He; [|discriminate].
    eapply Runs_iter_again.
    + unfold dial_once. eapply Runs_call.
      { simpl. rewrite He. reflexivity. }
      cbv beta iota. simpl is_nil. cbv iota.
      eapply Runs_call; [reflexivity|].
      eapply Runs_call; [reflexivity|].
      apply Runs_Ret.
    + eapply Runs_observe; [reflexivity|].
      match goal with |- Runs _ ?w0 _ => specialize (IH w0) end.
      simpl in IH. specialize (IH Hrest).
      replace (after_dial host (S n) _) with
        (after_dial host n
           {| env := v; reading := rd; dials := S dl; writes := wr; inbound := ib;
              log := ((lg ++ [call (net_Dial "tcp" (Sprintf_host_port host SERVER_PORT))]) ++
                      [call (fmt_Printf ("Connection failed: %v, retrying in 3 seconds..." ++ nl)
                                        [ArgE (Some e)])]) ++
                     [call (time_Sleep (3 * time_Second))] |}).
      * exact IH.
      * unfold after_dial. simpl. rewrite He. same_world. lia.
Qed.

(** While no attempt connects, the loop does not end: [n] failed attempts
    outlast a budget of [n] steps. *)
Lemma dial_loop_exec_None (host : string) (n : nat) :
  forall w : World,
    (forall j, j < n -> dial_result (env w) (dials w + j) <> None) ->
    exec n (dial_loop host) w = None.
Proof.
  induction n as [n IH] using lt_wf_ind. intros w Hall.
  destruct n as [|n]; [reflexivity|].
  destruct (exec (S n) (dial_loop host) w) as [o|] eqn:E; [exfalso|reflexivity].
  unfold dial_loop in E.
  rewrite (exec_observe (S n) _ _ w (observe_iter (dial_once host) tt)) in E.
  assert (Hbody : exists w1,
             Runs (dial_once host tt) w (Returned (inl tt) w1)
             /\ env w1 = env w /\ dials w1 = S (dials w)).
  { destruct w as [v rd dl wr ib lg]. simpl in *.
    destruct (dial_result v dl) as [e|] eqn:He.
    - eexists. split; [|split].
      + unfold dial_once. eapply Runs_call.
        { simpl. rewrite He. reflexivity. }
        cbv beta iota. simpl is_nil. cbv iota.
        eapply Runs_call; [reflexivity|].
        eapply Runs_call; [reflexivity|].
        apply Runs_Ret.
      + reflexivity.
      + reflexivity.
    - exfalso. apply (Hall 0); [lia|]. rewrite Nat.add_0_r. exact He. }
  destruct Hbody as (w1 & Hbody & Henv & Hdials).
  pose proof E as E'.
  rewrite exec_bind_stop in E'.
  destruct (exec (S n) (dial_once host tt) w) as [o1|] eqn:E1; [|discriminate].
  assert (o1 = Returned (inl tt) w1) as ->.
  { eapply Runs_det; [exists (S n); exact E1 | exact Hbody]. }
  apply (exec_bind_rest _ (S n) _ w (inl tt) w1 o E1) in E.
  simpl in E.
  change (exec n (dial_loop host) w1 = Some o) in E.
  rewrite IH in E; [discriminate | lia |].
  intros j Hj. rewrite Henv, Hdials.
  replace (S (dials w) + j) with (dials w + S j) by lia. apply Hall. lia.
Qed.

Lemma dial_loop_Diverges (host : string) (w : World) :
  (forall j, dial_result (env w) (dials w + j) <> None) ->
  Diverges (dial_loop host) w.
Proof. intros H n. apply dial_loop_exec_None. intros j _. apply H. Qed.

(* ===================================================================== *)
(** ** The chunk loop *)
(* ===================================================================== *)
Lemma chunk_end (size i : nat) :
  (if size <? i + BUFFER_SIZE then size else i + BUFFER_SIZE) = Nat.min (i + BUFFER_SIZE) size.
Proof.
  destruct (size <? i + BUFFER_SIZE) eqn:E.
  - apply Nat.ltb_lt in E. lia.
  - apply Nat.ltb_ge in E. lia.
Qed.

Lemma chunk_loop_Runs (conn : Conn) (data : list byte) (fuel : nat) :
  forall (i sentBytes : nat) (w : World),
    List.length data - i <= fuel ->
    Runs (chunk_loop conn data (i, sentBytes)) w
         (chunks_run conn (chunks_from data i fuel) w).
Proof.
  unfold chunk_loop.
  induction fuel as [|fuel IH]; intros i sentBytes w Hfuel.
  - simpl. apply Runs_iter_done. unfold send_chunk.
    replace (i <? List.length data) with false
      by (symmetry; apply Nat.ltb_ge; lia).
    apply Runs_Ret.
  - simpl chunks_from.
    destruct (i <? List.length data) eqn:Hi.
    + cbn [chunks_run].
      destruct (step (Conn_Write conn (chunk_at data i)) w) as [x w1|c w1|w1] eqn:Ew.
      2:{ unfold step in Ew. simpl in Ew.
          destruct (write_result (env w) (writes w)); discriminate. }
      2:{ unfold step in Ew. simpl in Ew.
          destruct (write_result (env w) (writes w)); discriminate. }
      destruct (step (io_ReadFull conn (String.length ACK_MSG)) w1)
        as [[ackBuffer err] w2|c w2|w2] eqn:Er.
      * destruct (negb (is_nil err) || negb (string_of_list_byte ackBuffer =? ACK_MSG)%string)
          eqn:Hbad.
        -- apply Runs_iter_done. unfold send_chunk. rewrite Hi, chunk_end.
           eapply Runs_call; [exact Ew|].
           eapply Runs_call; [exact Er|].
           cbv beta iota. rewrite Hbad.
           eapply Runs_call; [reflexivity|].
           apply Runs_Ret.
        -- eapply Runs_iter_again.
           ++ unfold send_chunk. rewrite Hi, chunk_end.
              eapply Runs_call; [exact Ew|].
              eapply Runs_call; [exact Er|].
              cbv beta iota. rewrite Hbad.
              eapply Runs_call; [reflexivity|].
              apply Runs_Ret.
           ++ apply IH. unfold BUFFER_SIZE. lia.
      * unfold step in Er. simpl in Er. unfold read_full in Er.
        destruct (_ <=? _); [discriminate|].
        destruct (incoming_end _); discriminate.
      * apply Runs_iter_Stalled. unfold send_chunk. rewrite Hi, chunk_end.
        eapply Runs_call; [exact Ew|].
        eapply Runs_call_Block. exact Er.
    + simpl. apply Runs_iter_done. unfold send_chunk. rewrite Hi. apply Runs_Ret.
Qed.

(** *** The chunks of an image *)
Lemma firstn_min_length {A} (n : nat) (l : list A) :
  firstn (Nat.min n (List.length l)) l = firstn n l.
Proof.
  destruct (Nat.le_ge_cases n (List.length l)) as [H|H].
  - rewrite Nat.min_l by exact H. reflexivity.
  - rewrite Nat.min_r by exact H.
    rewrite firstn_all, firstn_all2 by exact H. reflexivity.
Qed.

Lemma chunk_at_firstn (data : list byte) (i : nat) :
  chunk_at data i = firstn BUFFER_SIZE (skipn i data).
Proof.
  unfold chunk_at, slice.
  rewrite <- (firstn_min_length BUFFER_SIZE (skipn i data)).
  rewrite length_skipn. f_equal. lia.
Qed.

Lemma chunk_at_length (data : list byte) (i : nat) :
  List.length (chunk_at data i) = Nat.min BUFFER_SIZE (List.length data - i).
Proof. rewrite chunk_at_firstn, length_firstn, length_skipn. reflexivity. Qed.

Lemma chunks_from_concat (data : list byte) (fuel : nat) :
  forall i, List.length data - i <= fuel ->
            List.concat (chunks_from data i fuel) = skipn i data.
Proof.
  induction fuel as [|fuel IH]; intros i H; simpl.
  - symmetry. apply skipn_all2. lia.
  - destruct (i <? List.length data) eqn:Hi.
    + simpl. rewrite IH by (unfold BUFFER_SIZE; lia).
      rewrite chunk_at_firstn, Nat.add_comm, <- skipn_skipn.
      apply firstn_skipn.
    + apply Nat.ltb_ge in Hi. symmetry. apply skipn_all2. exact Hi.
Qed.

Lemma chunk_count_0 (s : nat) : s = 0 -> chunk_count s = 0.
Proof. intros ->. reflexivity. Qed.

Lemma chunk_count_S (s : nat) : 0 < s -> chunk_count s = S (chunk_count (s - BUFFER_SIZE)).
Proof.
  intros Hs. unfold chunk_count, BUFFER_SIZE.
  destruct (Nat.le_gt_cases 256 s) as [H|H].
  - replace (s + (256 - 1)) with ((s - 256 + (256 - 1)) + 1 * 256) by lia.
    rewrite Nat.div_add by lia. lia.
  - replace (s - 256) with 0 by lia.
    replace (s + (256 - 1)) with ((s - 1) + 1 * 256) by lia.
    rewrite Nat.div_add by lia.
    rewrite Nat.div_small by lia. reflexivity.
Qed.

Lemma chunks_from_length (data : list byte) (fuel : nat) :
  forall i, List.length data - i <= fuel ->
            List.length (chunks_from data i fuel) = chunk_count (List.length data - i).
Proof.
  induction fuel as [|fuel IH]; intros i H; simpl.
  - symmetry. apply chunk_count_0. lia.
  - destruct (i <? List.length data) eqn:Hi.
    + apply Nat.ltb_lt in Hi. simpl.
      rewrite IH by (unfold BUFFER_SIZE; lia).
      rewrite (chunk_count_S (List.length data - i)) by lia.
      f_equal. f_equal. lia.
    + apply Nat.ltb_ge in Hi. symmetry. apply chunk_count_0. lia.
Qed.

Lemma chunks_from_nth (data : list byte) (fuel : nat) :
  forall i k, k < List.length (chunks_from data i fuel) ->
              nth k (chunks_from data i fuel) [] = chunk_at data (i + k * BUFFER_SIZE).
Proof.
  induction fuel as [|fuel IH]; intros i k H; simpl in *; [lia|].
  destruct (i <? List.length data); simpl in *; [|lia].
  destruct k as [|k].
  - f_equal. lia.
  - rewrite IH by lia. f_equal. lia.
Qed.

Lemma chunks_concat (data : list byte) : List.concat (chunks data) = data.
Proof. unfold chunks. rewrite chunks_from_concat by lia. reflexivity. Qed.

Lemma chunks_length (data : list byte) :
  List.length (chunks data) = chunk_count (List.length data).
Proof. unfold chunks. rewrite chunks_from_length by lia. f_equal. lia. Qed.

Lemma chunks_nth (data : list byte) (k : nat) :
  k < List.length (chunks data) ->
  nth k (chunks data) [] = chunk_at data (k * BUFFER_SIZE).
Proof. intros H. unfold chunks in *. rewrite chunks_from_nth by exact H. reflexivity. Qed.

Lemma chunk_count_bound (s k : nat) : k < chunk_count s -> k * BUFFER_SIZE < s.
Proof.
  unfold chunk_count, BUFFER_SIZE. intros H.
  destruct (Nat.le_gt_cases s (k * 256)) as [Hle|Hgt]; [exfalso|exact Hgt].
  assert ((s + (256 - 1)) / 256 < S k); [|lia].
  apply Nat.Div0.div_lt_upper_bound. lia.
Qed.

Lemma chunk_count_last (s : nat) : 0 < s -> chunk_count s = S ((s - 1) / BUFFER_SIZE).
Proof.
  intros H. unfold chunk_count, BUFFER_SIZE.
  replace (s + (256 - 1)) with ((s - 1) + 1 * 256) by lia.
  rewrite Nat.div_add by lia. lia.
Qed.

(** *** Reading the log *)
Lemma count_app p l1 l2 : count p (l1 ++ l2) = count p l1 + count p l2.
Proof. unfold count. rewrite filter_app, length_app. reflexivity. Qed.

Lemma writes_of_app l1 l2 : writes_of (l1 ++ l2) = writes_of l1 ++ writes_of l2.
Proof. apply flat_map_app. Qed.

Lemma reads_of_app l1 l2 : reads_of (l1 ++ l2) = reads_of l1 ++ reads_of l2.
Proof. apply flat_map_app. Qed.

Lemma sleeps_of_app l1 l2 : sleeps_of (l1 ++ l2) = sleeps_of l1 ++ sleeps_of l2.
Proof. apply flat_map_app. Qed.

(** *** The acknowledged chunks *)
Lemma step_Write (conn : Conn) (b : list byte) (w : World) :
  exists x, step (Conn_Write conn b) w =
            Answer x {| env := env w; reading := reading w; dials := dials w;
                        writes := S (writes w); inbound := inbound w;
                        log := log w ++ [call (Conn_Write conn b)] |}.
Proof.
  unfold step. simpl. destruct (write_result (env w) (writes w)); eexists; reflexivity.
Qed.

Lemma chunks_run_acked (conn : Conn) (cs : list (list byte)) :
  forall (w : World) (rest : list byte),
    inbound w = acks (List.length cs) ++ rest ->
    chunks_run conn cs w =
    Returned true
      {| env := env w; reading := reading w; dials := dials w;
         writes := writes w + List.length cs; inbound := rest;
         log := log w ++ chunk_log conn cs |}.
Proof.
  induction cs as [|c cs IH]; intros w rest Hin.
  - destruct w as [v rd dl wr ib lg]. simpl in *. subst ib.
    rewrite Nat.add_0_r, app_nil_r. reflexivity.
  - cbn [chunks_run].
    destruct (step_Write conn c w) as [x ->].
    destruct w as [v rd dl wr ib lg]. simpl in Hin. subst ib.
    unfold step. cbn -[chunks_run chunk_log acks].
    rewrite IH with (rest := rest) by reflexivity.
    f_equal. same_world. lia.
Qed.

Lemma chunks_run_app (conn : Conn) (cs1 cs2 : list (list byte)) :
  forall w : World,
    chunks_run conn (cs1 ++ cs2) w =
    match chunks_run conn cs1 w with
    | Returned true w1 => chunks_run conn cs2 w1
    | o => o
    end.
Proof.
  induction cs1 as [|c cs1 IH]; intros w; [reflexivity|].
  simpl app. cbn [chunks_run].
  destruct (step (Conn_Write conn c) w) as [x w1|code w1|w1]; try reflexivity.
  destruct (step (io_ReadFull conn (String.length ACK_MSG)) w1)
    as [[ackBuffer err] w2|code w2|w2]; try reflexivity.
  destruct (negb (is_nil err) || negb (string_of_list_byte ackBuffer =? ACK_MSG)%string);
    [reflexivity|].
  apply IH.
Qed.

Lemma read_full_refuses (c : Conn) (tok : string) (w : World) :
  refuses (env w) tok (inbound w) = true ->
  exists buf e,
    step (io_ReadFull c (String.length tok)) w =
    Answer (buf, e)
      {| env := env w; reading := reading w; dials := dials w; writes := writes w;
         inbound := skipn (String.length tok) (inbound w);
         log := log w ++ [call (io_ReadFull c (String.length tok))] |}
    /\ negb (is_nil e) || negb (string_of_list_byte buf =? tok)%string = true.
Proof.
  unfold refuses, stalls, delivers, step. simpl. unfold read_full. simpl.
  intros H. apply andb_true_iff in H. destruct H as [Hs Hd].
  destruct (String.length tok <=? List.length (inbound w)) eqn:Hlen.
  - simpl in Hd. eexists. eexists. split; [reflexivity|].
    simpl. exact Hd.
  - apply Nat.leb_gt in Hlen.
    replace (List.length (inbound w) <? String.length tok) with true in Hs
      by (symmetry; apply Nat.ltb_lt; exact Hlen).
    destruct (incoming_end (env w)) as [e|]; [|discriminate].
    eexists. eexists. split.
    + rewrite skipn_all2 by lia. reflexivity.
    + reflexivity.
Qed.

Lemma read_full_stalls (c : Conn) (n : nat) (w : World) :
  stalls (env w) n (inbound w) = true ->
  step (io_ReadFull c n) w =
  Block {| env := env w; reading := reading w; dials := dials w; writes := writes w;
           inbound := []; log := log w ++ [call (io_ReadFull c n)] |}.
Proof.
  unfold stalls, step. simpl. unfold read_full. simpl.
  intros H. apply andb_true_iff in H. destruct H as [Hlen Hend].
  apply Nat.ltb_lt in Hlen.
  replace (n <=? List.length (inbound w)) with false
    by (symmetry; apply Nat.leb_gt; exact Hlen).
  destruct (incoming_end (env w)); [discriminate|reflexivity].
Qed.

Lemma read_full_delivers (c : Conn) (tok : string) (w : World) :
  delivers tok (inbound w) = true ->
  exists buf,
    step (io_ReadFull c (String.length tok)) w =
    Answer (buf, None)
      {| env := env w; reading := reading w; dials := dials w; writes := writes w;
         inbound := skipn (String.length tok) (inbound w);
         log := log w ++ [call (io_ReadFull c (String.length tok))] |}
    /\ negb (is_nil None) || negb (string_of_list_byte buf =? tok)%string = false.
Proof.
  unfold delivers, step. simpl. unfold read_full. simpl.
  intros H. apply andb_true_iff in H. destruct H as [Hlen Heq].
  rewrite Hlen. eexists. split; [reflexivity|]. rewrite Heq. reflexivity.
Qed.

Lemma chunks_run_refused (conn : Conn) (pre : list (list byte)) (c : list byte)
      (post : list (list byte)) (w : World) (next : list byte) :
  inbound w = acks (List.length pre) ++ next ->
  refuses (env w) ACK_MSG next = true ->
  chunks_run conn (pre ++ c :: post) w =
  Returned false
    {| env := env w; reading := reading w; dials := dials w;
       writes := writes w + List.length pre + 1;
       inbound := skipn (String.length ACK_MSG) next;
       log := log w ++ chunk_log conn pre
                    ++ [ call (Conn_Write conn c);
                         call (io_ReadFull conn (String.length ACK_MSG));
                         transmission_failed ] |}.
Proof.
  intros Hin Href.
  rewrite chunks_run_app, (chunks_run_acked conn pre w next Hin).
  cbn [chunks_run].
  match goal with |- context [step (Conn_Write conn c) ?w0] =>
    destruct (step_Write conn c w0) as [x ->];
    cbn [env reading dials writes inbound log] end.
  match goal with |- context [step (io_ReadFull conn _) ?w0] =>
    destruct (read_full_refuses conn ACK_MSG w0 Href) as (buf & e & -> & Hbad);
    cbn [env reading dials writes inbound log] end.
  rewrite Hbad. f_equal. same_world. lia.
Qed.

Lemma chunks_run_stalled (conn : Conn) (pre : list (list byte)) (c : list byte)
      (post : list (list byte)) (w : World) (next : list byte) :
  inbound w = acks (List.length pre) ++ next ->
  stalls (env w) (String.length ACK_MSG) next = true ->
  chunks_run conn (pre ++ c :: post) w =
  Stalled
    {| env := env w; reading := reading w; dials := dials w;
       writes := writes w + List.length pre + 1;
       inbound := [];
       log := log w ++ chunk_log conn pre
                    ++ [ call (Conn_Write conn c);
                         call (io_ReadFull conn (String.length ACK_MSG)) ] |}.
Proof.
  intros Hin Hst.
  rewrite chunks_run_app, (chunks_run_acked conn pre w next Hin).
  cbn [chunks_run].
  match goal with |- context [step (Conn_Write conn c) ?w0] =>
    destruct (step_Write conn c w0) as [x ->];
    cbn [env reading dials writes inbound log] end.
  match goal with |- context [step (io_ReadFull conn _) ?w0] =>
    rewrite (read_full_stalls conn (String.length ACK_MSG) w0 Hst);
    cbn [env reading dials writes inbound log] end.
  f_equal. same_world. lia.
Qed.

Lemma chunks_run_end (conn : Conn) (cs : list (list byte)) :
  forall w : World, chunks_end conn cs w (chunks_run conn cs w).
Proof.
  induction cs as [|c cs IH]; intros w.
  - simpl. apply all_acked. simpl. rewrite app_nil_r. reflexivity.
  - cbn [chunks_run].
    destruct (step_Write conn c w) as [x ->].
    match goal with |- context [step (io_ReadFull conn ?n) ?w0] =>
      pose proof (step_log (io_ReadFull conn n) w0) as Hlog;
      pose proof (step_env (io_ReadFull conn n) w0) as Henv;
      destruct (step (io_ReadFull conn n) w0) as [[ackBuffer err] w2|code w2|w2] eqn:Er
    end; simpl in Hlog, Henv.
    + destruct (negb (is_nil err) || negb (string_of_list_byte ackBuffer =? ACK_MSG)%string).
      * apply (ack_refused conn (c :: cs) w 0 c); [reflexivity|].
        simpl. rewrite Hlog.
        repeat (rewrite <- app_assoc; simpl). reflexivity.
      * match goal with |- context [chunks_run conn cs ?w0] =>
          specialize (IH w0); destruct IH as [w' Hl|j c' w' Hj Hl|j c' w' Hj Hl] end.
        -- apply all_acked. rewrite Hl. simpl. rewrite Hlog.
           repeat (rewrite <- app_assoc; simpl). reflexivity.
        -- apply (ack_refused conn (c :: cs) w (S j) c'); [exact Hj|].
           rewrite Hl. simpl. rewrite Hlog.
           repeat (rewrite <- app_assoc; simpl). reflexivity.
        -- apply (ack_stalled conn (c :: cs) w (S j) c'); [exact Hj|].
           rewrite Hl. simpl. rewrite Hlog.
           repeat (rewrite <- app_assoc; simpl). reflexivity.
    + unfold step in Er. simpl in Er. unfold read_full in Er.
      destruct (_ <=? _); [discriminate|].
      destruct (incoming_end _); discriminate.
    + apply (ack_stalled conn (c :: cs) w 0 c); [reflexivity|].
      simpl. rewrite Hlog.
      repeat (rewrite <- app_assoc; simpl). reflexivity.
Qed.

(* ===================================================================== *)
(** ** The whole transfer of version 1.1.0 *)
(* ===================================================================== *)
Lemma V110_not_found_Runs (firmwareFile : string) (w : World) (d : list byte) (e : err) :
  files (env w) firmwareFile = (d, Some e) ->
  Runs (V110.sendFirmware firmwareFile) w
       (Returned tt (record (said_not_found firmwareFile)
                       (record (call (os_ReadFile firmwareFile)) w))).
Proof.
  intros Hf. unfold V110.sendFirmware.
  eapply Runs_call.
  { unfold step. simpl. rewrite Hf. reflexivity. }
  simpl. apply Runs_trigger. reflexivity.
Qed.

Lemma V110_no_open_Runs (firmwareFile : string) (w : World) (d : list byte) (e : err) :
  files (env w) firmwareFile = (d, None) ->
  opens (env w) firmwareFile = inl e ->
  Runs (V110.sendFirmware firmwareFile) w
       (Returned tt
          (record (said_crc_error (Some e))
             (record (call (os_Open firmwareFile))
                (record (said_sending firmwareFile (List.length d))
                   (record (call (os_ReadFile firmwareFile)) w))))).
Proof.
  intros Hf Ho. unfold V110.sendFirmware.
  eapply Runs_call.
  { unfold step. simpl. rewrite Hf. reflexivity. }
  simpl. eapply Runs_call; [reflexivity|].
  eapply Runs_bind.
  { apply calculateCRC32_Runs_no_file. exact Ho. }
  simpl. apply Runs_trigger. reflexivity.
Qed.

Lemma V110_read_error_Runs (firmwareFile : string) (w : World) (d : list byte)
      (answers : list ReadStep) (c : Z) (e : err) :
  files (env w) firmwareFile = (d, None) ->
  opens (env w) firmwareFile = inr answers ->
  checksum_of answers = (c, Some e) ->
  Runs (V110.sendFirmware firmwareFile) w
       (Returned tt
          (record (said_crc_error (Some e))
             (after_checksum firmwareFile answers
                (record (said_sending firmwareFile (List.length d))
                   (record (call (os_ReadFile firmwareFile)) w))))).
Proof.
  intros Hf Ho Hc. unfold V110.sendFirmware.
  eapply Runs_call.
  { unfold step. simpl. rewrite Hf. reflexivity. }
  simpl. eapply Runs_call; [reflexivity|].
  eapply Runs_bind.
  { apply calculateCRC32_Runs. exact Ho. }
  rewrite Hc. simpl. apply Runs_trigger. reflexivity.
Qed.

Lemma verification_Runs (conn : Conn) (firmwareCRC32 : Z) (w : World) :
  Runs (_ <- ITree.trigger (Conn_Write conn (PutUint32 firmwareCRC32));;
        ITree.trigger (fmt_Printf ("Firmware upload completed. Sent CRC32: 0x%08X" ++ nl)
                                  [ArgI firmwareCRC32]);;
        '(crcResponse, err) <- ITree.trigger (io_ReadFull conn (String.length CRC_OK_MSG));;
        if negb (is_nil err) || negb (string_of_list_byte crcResponse =? CRC_OK_MSG)%string then
          ITree.trigger (fmt_Println [ArgS "Error: CRC32 verification failed, firmware might be corrupted!"])
        else
          ITree.trigger (fmt_Println [ArgS "Success: CRC32 verification passed, firmware transfer complete."]))
       w (verification_run conn firmwareCRC32 w).
Proof.
  unfold verification_run.
  destruct (step_Write conn (PutUint32 firmwareCRC32) w) as [x Hx]. rewrite Hx.
  eapply Runs_call; [exact Hx|].
  eapply Runs_call; [reflexivity|].
  match goal with |- context [step (io_ReadFull conn ?n) ?w0] =>
    destruct (step (io_ReadFull conn n) w0) as [[crcResponse err] w2|code w2|w2] eqn:Er
  end.
  - eapply Runs_call; [exact Er|].
    cbv beta iota.
    destruct (negb (is_nil err) || negb (string_of_list_byte crcResponse =? CRC_OK_MSG)%string);
      apply Runs_trigger; reflexivity.
  - unfold step in Er. simpl in Er. unfold read_full in Er.
    destruct (_ <=? _); [discriminate|].
    destruct (incoming_end _); discriminate.
  - eapply Runs_call_Block. exact Er.
Qed.

Lemma V110_transfer_Runs (firmwareFile : string) (w : World) (firmwareData : list byte)
      (answers : list ReadStep) (firmwareCRC32 : Z) (n : nat) :
  files (env w) firmwareFile = (firmwareData, None) ->
  opens (env w) firmwareFile = inr answers ->
  checksum_of answers = (firmwareCRC32, None) ->
  connects_at (dial_result (env w)) (dials w) n = true ->
  Runs (V110.sendFirmware firmwareFile) w
       (transfer_run (connTo (dial_address V110.SERVER_IP)) firmwareData firmwareCRC32
          (after_dial V110.SERVER_IP n
             (after_input firmwareFile firmwareData answers firmwareCRC32 w))).
Proof.
  intros Hf Ho Hc Hd. unfold V110.sendFirmware.
  eapply Runs_call.
  { unfold step. simpl. rewrite Hf. reflexivity. }
  simpl. eapply Runs_call; [reflexivity|].
  eapply Runs_bind.
  { apply calculateCRC32_Runs. exact Ho. }
  rewrite Hc. simpl negb. cbv iota.
  eapply Runs_call; [reflexivity|].
  eapply Runs_bind.
  { apply (dial_loop_Runs V110.SERVER_IP n). exact Hd. }
  fold (after_input firmwareFile firmwareData answers firmwareCRC32 w).
  set (w0 := after_dial _ _ _).
  set (conn := connTo _).
  unfold transfer_run.
  destruct (step_Write conn (size_header firmwareData) w0) as [x Hx]. rewrite Hx.
  eapply Runs_call; [exact Hx|].
  eapply Runs_call; [reflexivity|].
  match goal with |- context [chunks_run conn _ ?w1] =>
    pose proof (chunk_loop_Runs conn firmwareData (List.length firmwareData) 0 0 w1
                  ltac:(lia)) as Hloop;
    fold (chunks firmwareData) in Hloop;
    pose proof (chunks_run_end conn (chunks firmwareData) w1) as Hend;
    destruct (chunks_run conn (chunks firmwareData) w1) as [[|] w2|code w2|w2]
  end.
  - eapply Runs_bind; [exact Hloop|].
    pose proof (verification_Runs conn firmwareCRC32 w2) as Hv.
    destruct (verification_run conn firmwareCRC32 w2) as [[] w3|code w3|w3].
    + eapply Runs_bind; [exact Hv|].
      eapply Runs_call; [reflexivity|]. apply Runs_Ret.
    + apply Runs_bind_Exited. exact Hv.
    + apply Runs_bind_Stalled. exact Hv.
  - eapply Runs_bind; [exact Hloop|].
    eapply Runs_bind; [apply Runs_Ret|].
    eapply Runs_call; [reflexivity|]. apply Runs_Ret.
  - inversion Hend.
  - apply Runs_bind_Stalled. exact Hloop.
Qed.

(** *** The table-driven update is the bit-by-bit CRC-32 *)
Section TableDriven.

Local Open Scope Z_scope.

Lemma table_step_shift_bit (c : Z) : crc32.table_step crc32.IEEE c = CRC32_IEEE.shift_bit c.
Proof.
  unfold crc32.table_step, CRC32_IEEE.shift_bit, crc32.IEEE.
  change 1 with (Z.ones 1) at 1. rewrite Z.land_ones by lia.
  rewrite <- Z.bit0_odd, <- Z.bit0_mod.
  destruct (Z.testbit c 0); reflexivity.
Qed.

Lemma shift_bit_lxor (a b : Z) :
  CRC32_IEEE.shift_bit (Z.lxor a b) =
  Z.lxor (CRC32_IEEE.shift_bit a) (CRC32_IEEE.shift_bit b).
Proof.
  unfold CRC32_IEEE.shift_bit.
  rewrite <- !Z.bit0_odd, Z.lxor_spec, Z.shiftr_lxor.
  set (p := 0xEDB88320). set (x := Z.shiftr a 1). set (y := Z.shiftr b 1).
  destruct (Z.testbit a 0), (Z.testbit b 0); simpl;
    apply Z.bits_inj'; intros n Hn; rewrite ?Z.lxor_spec;
    destruct (Z.testbit x n), (Z.testbit y n), (Z.testbit p n); reflexivity.
Qed.

Lemma shift_bits_lxor (k : nat) (a b : Z) :
  Nat.iter k CRC32_IEEE.shift_bit (Z.lxor a b) =
  Z.lxor (Nat.iter k CRC32_IEEE.shift_bit a) (Nat.iter k CRC32_IEEE.shift_bit b).
Proof.
  induction k as [|k IH]; simpl; [reflexivity|].
  rewrite IH. apply shift_bit_lxor.
Qed.

(** Zero bits shifted in from nowhere leave nothing to reduce. *)
Lemma shift_bits_shiftl (k : nat) (h : Z) :
  Nat.iter k CRC32_IEEE.shift_bit (Z.shiftl h (Z.of_nat k)) = h.
Proof.
  induction k as [|k IH].
  - simpl. apply Z.shiftl_0_r.
  - rewrite Nat.iter_succ_r. unfold CRC32_IEEE.shift_bit at 2.
    rewrite <- Z.bit0_odd, Z.shiftl_spec_low by lia.
    rewrite Z.shiftr_shiftl_l by lia.
    replace (Z.of_nat (S k) - 1) with (Z.of_nat k) by lia.
    exact IH.
Qed.

Lemma split_low_byte (x : Z) :
  x = Z.lxor (x mod 256) (Z.shiftl (Z.shiftr x 8) 8).
Proof.
  apply Z.bits_inj'. intros i Hi.
  rewrite Z.lxor_spec.
  change 256 with (2 ^ 8). rewrite Z.testbit_mod_pow2 by lia.
  rewrite Z.shiftl_spec by lia.
  destruct (i <? 8) eqn:E.
  - apply Z.ltb_lt in E. rewrite Z.testbit_neg_r with (n := i - 8) by lia.
    simpl. rewrite xorb_false_r. reflexivity.
  - apply Z.ltb_ge in E. rewrite Z.shiftr_spec by lia.
    replace (i - 8 + 8) with i by lia. reflexivity.
Qed.

Lemma shift_byte_split (x : Z) :
  Nat.iter 8 CRC32_IEEE.shift_bit x =
  Z.lxor (Nat.iter 8 CRC32_IEEE.shift_bit (x mod 256)) (Z.shiftr x 8).
Proof.
  rewrite (split_low_byte x) at 1.
  rewrite shift_bits_lxor. f_equal.
  apply (shift_bits_shiftl 8).
Qed.

Lemma byte_val_range (b : byte) : 0 <= byte_val b < 256.
Proof. destruct b; vm_compute; split; congruence. Qed.

Lemma lxor_mod_256 (a b : Z) :
  Z.lxor (a mod 256) (b mod 256) = (Z.lxor a b) mod 256.
Proof.
  apply Z.bits_inj'. intros i Hi.
  change 256 with (2 ^ 8).
  rewrite Z.lxor_spec, !Z.testbit_mod_pow2, Z.lxor_spec by lia.
  destruct (i <? 8); reflexivity.
Qed.

Lemma lxor_byte_range (a b : Z) : 0 <= a < 256 -> 0 <= b < 256 -> 0 <= Z.lxor a b < 256.
Proof.
  intros Ha Hb.
  rewrite <- (Z.mod_small a 256), <- (Z.mod_small b 256), lxor_mod_256 by lia.
  apply Z.mod_pos_bound. lia.
Qed.

Lemma IEEETable_nth (i : Z) :
  0 <= i < 256 ->
  nth (Z.to_nat i) crc32.IEEETable 0 = Nat.iter 8 CRC32_IEEE.shift_bit i.
Proof.
  intros Hi.
  change crc32.IEEETable with (crc32.simpleMakeTable crc32.IEEE).
  unfold crc32.simpleMakeTable.
  rewrite (nth_indep _ 0 (Nat.iter 8 (crc32.table_step crc32.IEEE) (Z.of_nat 0)))
    by (rewrite length_map, length_seq; lia).
  rewrite (map_nth (fun i => Nat.iter 8 (crc32.table_step crc32.IEEE) (Z.of_nat i))).
  rewrite seq_nth by lia. simpl Nat.add.
  rewrite Z2Nat.id by lia.
  simpl Nat.iter. rewrite !table_step_shift_bit. reflexivity.
Qed.

Lemma update_byte_shift_byte (c : Z) (v : byte) :
  crc32.update_byte crc32.IEEETable c v = CRC32_IEEE.shift_byte c v.
Proof.
  unfold crc32.update_byte, CRC32_IEEE.shift_byte.
  pose proof (byte_val_range v) as Hv.
  assert (Hc : 0 <= c mod 256 < 256) by (apply Z.mod_pos_bound; lia).
  rewrite IEEETable_nth by (apply lxor_byte_range; assumption).
  rewrite (shift_byte_split (Z.lxor c (byte_val v))).
  f_equal.
  - f_equal. rewrite <- lxor_mod_256, (Z.mod_small (byte_val v)) by lia. reflexivity.
  - rewrite Z.shiftr_lxor, (Z.shiftr_div_pow2 (byte_val v)) by lia.
    change (2 ^ 8) with 256. rewrite (Z.div_small (byte_val v)) by lia.
    symmetry. apply Z.lxor_0_r.
Qed.

(** Go's [crc32.ChecksumIEEE] is the CRC-32 of the standard. *)
Lemma ChecksumIEEE_standard (data : list byte) :
  crc32.ChecksumIEEE data = CRC32_IEEE.checksum data.
Proof.
  unfold crc32.ChecksumIEEE, crc32.simpleUpdate, CRC32_IEEE.checksum, not32.
  f_equal. change (Z.lxor 0 4294967295) with 4294967295.
  generalize 4294967295. induction data as [|b data IH]; intros c; simpl; [reflexivity|].
  rewrite update_byte_shift_byte. apply IH.
Qed.

End TableDriven.

Lemma stream_of_plain_reads (blocks : list (list byte)) :
  stream_of (map (fun b => (b, None)) blocks) = (List.concat blocks, None).
Proof.
  induction blocks as [|b blocks IH]; simpl; [reflexivity|].
  rewrite IH. reflexivity.
Qed.

(** C4. For every file content, however the reads of the file partition
    it, [calculateCRC32] returns the IEEE CRC-32 of the whole byte
    sequence and no error; the reads in 256-byte blocks and the single read
    of everything are two such partitions; the checksum of the empty
    content is the CRC-32 of no bytes, zero. *)
Theorem calculateCRC32_partition_independent :
  forall (w : World) (filePath : string) (answers : list ReadStep) (content : list byte),
    opens (env w) filePath = inr answers ->
    stream_of answers = (content, None) ->
    Runs (calculateCRC32 filePath) w
         (Returned (CRC32_IEEE.checksum content, None)
                   (after_checksum filePath answers w))
    /\ stream_of (block_reads content) = (content, None)
    /\ stream_of (single_read content) = (content, None)
    /\ CRC32_IEEE.checksum [] = 0%Z.
Proof.
  intros w filePath answers content Hopen Hstream.
  split; [|split; [|split]].
  - pose proof (calculateCRC32_Runs filePath answers w Hopen) as H.
    unfold checksum_of in H. rewrite Hstream in H.
    rewrite ChecksumIEEE_standard in H. exact H.
  - unfold block_reads. rewrite stream_of_plain_reads, chunks_concat. reflexivity.
  - unfold single_read. simpl. rewrite app_nil_r. reflexivity.
  - reflexivity.
Qed.

(** *** The input stage *)
(** What the log of each stage holds. *)
Section LogFacts.

Variable X : Type.
Variable f : LogEntry -> list X.

Lemma flat_map_repeat_nil (c : LogEntry) (k : nat) :
  f c = [] -> flat_map f (repeat c k) = [].
Proof. intros H. induction k as [|k IH]; simpl; [reflexivity|]. rewrite H. exact IH. Qed.

End LogFacts.

Lemma filter_repeat_false (p : LogEntry -> bool) (c : LogEntry) (k : nat) :
  p c = false -> filter p (repeat c k) = [].
Proof. intros H. induction k as [|k IH]; simpl; [reflexivity|]. rewrite H. exact IH. Qed.

Lemma count_repeat_false (p : LogEntry -> bool) (c : LogEntry) (k : nat) :
  p c = false -> count p (repeat c k) = 0.
Proof. intros H. unfold count. rewrite filter_repeat_false by exact H. reflexivity. Qed.

Lemma checksum_log_net path answers : filter is_net (checksum_log path answers) = [].
Proof.
  unfold checksum_log. simpl. rewrite filter_app, filter_repeat_false by reflexivity.
  reflexivity.
Qed.

Lemma checksum_log_writes path answers : writes_of (checksum_log path answers) = [].
Proof.
  unfold checksum_log, writes_of. simpl.
  rewrite flat_map_app, flat_map_repeat_nil by reflexivity. reflexivity.
Qed.

Lemma checksum_log_reads path answers : reads_of (checksum_log path answers) = [].
Proof.
  unfold checksum_log, reads_of. simpl.
  rewrite flat_map_app, flat_map_repeat_nil by reflexivity. reflexivity.
Qed.

Lemma checksum_log_sleeps path answers : sleeps_of (checksum_log path answers) = [].
Proof.
  unfold checksum_log, sleeps_of. simpl.
  rewrite flat_map_app, flat_map_repeat_nil by reflexivity. reflexivity.
Qed.

Lemma checksum_log_dials path answers : count is_Dial (checksum_log path answers) = 0.
Proof.
  unfold checksum_log, count. simpl.
  rewrite filter_app, filter_repeat_false by reflexivity. reflexivity.
Qed.

Lemma checksum_log_ReadFile path answers : count is_ReadFile (checksum_log path answers) = 0.
Proof.
  unfold checksum_log, count. simpl.
  rewrite filter_app, filter_repeat_false by reflexivity. reflexivity.
Qed.

Lemma checksum_log_Open path answers : count is_Open (checksum_log path answers) = 1.
Proof.
  unfold checksum_log, count. simpl.
  rewrite filter_app, filter_repeat_false by reflexivity. reflexivity.
Qed.

(** C5. When loading the firmware file fails, or the checksum computation
    returns an error, [sendFirmware] returns after printing the failure of
    the input stage, and its log holds no call of the network: no dial, no
    write, no read, no close of a connection. *)
Theorem input_failure_no_network :
  forall (v : Env) (firmwareFile : string),
    load_fails v firmwareFile || checksum_fails v firmwareFile = true ->
    exists w',
      Runs (V110.sendFirmware firmwareFile) (initial v) (Returned tt w')
      /\ filter is_net (log w') = []
      /\ writes_of (log w') = []
      /\ count is_Dial (log w') = 0
      /\ (load_fails v firmwareFile = true ->
          log w' = [call (os_ReadFile firmwareFile); said_not_found firmwareFile])
      /\ (load_fails v firmwareFile = false ->
          exists e l, log w' = l ++ [said_crc_error (Some e)]).
Proof.
  intros v firmwareFile H.
  unfold load_fails, checksum_fails in *.
  destruct (files v firmwareFile) as [d [e|]] eqn:Hf; simpl in H |- *.
  - eexists. split.
    { eapply V110_not_found_Runs. exact Hf. }
    simpl. repeat split; try reflexivity. discriminate.
  - destruct (opens v firmwareFile) as [e|answers] eqn:Ho.
    + eexists. split.
      { eapply V110_no_open_Runs; [exact Hf | exact Ho]. }
      simpl. repeat split; try reflexivity; try discriminate.
      intros _. exists e.
      exists [call (os_ReadFile firmwareFile);
              said_sending firmwareFile (List.length d);
              call (os_Open firmwareFile)].
      reflexivity.
    + destruct (checksum_of answers) as [c [e|]] eqn:Hc; [|discriminate].
      eexists. split.
      { eapply V110_read_error_Runs; [exact Hf | exact Ho | exact Hc]. }
      split; [|split; [|split; [|split]]].
      * cbn [log record after_checksum initial].
        rewrite !filter_app, checksum_log_net. reflexivity.
      * cbn [log record after_checksum initial].
        rewrite !writes_of_app, checksum_log_writes. reflexivity.
      * cbn [log record after_checksum initial].
        rewrite !count_app, checksum_log_dials. reflexivity.
      * discriminate.
      * intros _. exists e. eexists. reflexivity.
Qed.

(** *** The ways a transfer ends *)
Ltac log_eq := repeat (rewrite <- app_assoc; cbn [app]); try reflexivity.

Lemma verification_run_delivered (conn : Conn) (crc : Z) (w : World) :
  delivers CRC_OK_MSG (inbound w) = true ->
  exists w', verification_run conn crc w = Returned tt w'
             /\ log w' = log w ++ verification_calls conn crc ++ [verification_passed].
Proof.
  intros H. unfold verification_run.
  destruct (step_Write conn (PutUint32 crc) w) as [x ->].
  match goal with |- context [step (io_ReadFull conn _) ?w0] =>
    destruct (read_full_delivers conn CRC_OK_MSG w0 H) as (buf & -> & Hok) end.
  rewrite Hok. eexists. split; [reflexivity|].
  cbn [log record]. unfold verification_calls. log_eq.
Qed.

Lemma verification_run_refused (conn : Conn) (crc : Z) (w : World) :
  refuses (env w) CRC_OK_MSG (inbound w) = true ->
  exists w', verification_run conn crc w = Returned tt w'
             /\ log w' = log w ++ verification_calls conn crc ++ [verification_failed].
Proof.
  intros H. unfold verification_run.
  destruct (step_Write conn (PutUint32 crc) w) as [x ->].
  match goal with |- context [step (io_ReadFull conn _) ?w0] =>
    destruct (read_full_refuses conn CRC_OK_MSG w0 H) as (buf & e & -> & Hbad) end.
  rewrite Hbad. eexists. split; [reflexivity|].
  cbn [log record]. unfold verification_calls. log_eq.
Qed.

Lemma verification_run_stalled (conn : Conn) (crc : Z) (w : World) :
  stalls (env w) (String.length CRC_OK_MSG) (inbound w) = true ->
  exists w', verification_run conn crc w = Stalled w'
             /\ log w' = log w ++ verification_calls conn crc.
Proof.
  intros H. unfold verification_run.
  destruct (step_Write conn (PutUint32 crc) w) as [x ->].
  match goal with |- context [step (io_ReadFull conn ?n) ?w0] =>
    rewrite (read_full_stalls conn n w0 H) end.
  eexists. split; [reflexivity|].
  cbn [log record]. unfold verification_calls. log_eq.
Qed.

Lemma fate_cases (v : Env) (tok : string) (next : list byte) :
  delivers tok next = true \/ refuses v tok next = true
  \/ stalls v (String.length tok) next = true.
Proof.
  unfold refuses.
  destruct (delivers tok next); [left; reflexivity|].
  destruct (stalls v (String.length tok) next); [right; right; reflexivity|].
  right. left. reflexivity.
Qed.

Lemma transfer_run_end (conn : Conn) (data : list byte) (crc : Z) (w : World) :
  transfer_end conn data crc w (transfer_run conn data crc w).
Proof.
  unfold transfer_run.
  destruct (step_Write conn (size_header data) w) as [x ->].
  match goal with |- context [chunks_run conn _ ?w0] =>
    destruct (chunks_run_end conn (chunks data) w0) as [w1 Hl|j c w1 Hj Hl|j c w1 Hj Hl] end;
    cbn [log record] in Hl.
  - destruct (fate_cases (env w1) CRC_OK_MSG (inbound w1)) as [H|[H|H]].
    + destruct (verification_run_delivered conn crc w1 H) as (w2 & -> & Hl2).
      apply end_verified. cbn [log record]. rewrite Hl2, Hl.
      unfold header_calls. log_eq.
    + destruct (verification_run_refused conn crc w1 H) as (w2 & -> & Hl2).
      apply end_not_verified. cbn [log record]. rewrite Hl2, Hl.
      unfold header_calls. log_eq.
    + destruct (verification_run_stalled conn crc w1 H) as (w2 & -> & Hl2).
      apply end_verification_stalled. rewrite Hl2, Hl.
      unfold header_calls. log_eq.
  - apply (end_refused conn data crc w j c); [exact Hj|].
    cbn [log record]. rewrite Hl. unfold header_calls, refused_chunk. log_eq.
  - apply (end_stalled conn data crc w j c); [exact Hj|].
    rewrite Hl. unfold header_calls, unanswered_chunk. log_eq.
Qed.

(** *** What each stage leaves in the log *)
Lemma chunk_log_writes conn cs : writes_of (chunk_log conn cs) = cs.
Proof. induction cs as [|c cs IH]; simpl; [reflexivity|]. f_equal. exact IH. Qed.

Lemma chunk_log_reads conn cs :
  reads_of (chunk_log conn cs) = repeat (String.length ACK_MSG) (List.length cs).
Proof. induction cs as [|c cs IH]; simpl; [reflexivity|]. f_equal. exact IH. Qed.

Lemma chunk_log_sleeps conn cs : sleeps_of (chunk_log conn cs) = [].
Proof. induction cs as [|c cs IH]; simpl; [reflexivity|]. exact IH. Qed.

Lemma chunk_log_dials conn cs : count is_Dial (chunk_log conn cs) = 0.
Proof. induction cs as [|c cs IH]; simpl; [reflexivity|]. exact IH. Qed.

Lemma chunk_log_ReadFile conn cs : count is_ReadFile (chunk_log conn cs) = 0.
Proof. induction cs as [|c cs IH]; simpl; [reflexivity|]. exact IH. Qed.

Lemma chunk_log_Open conn cs : count is_Open (chunk_log conn cs) = 0.
Proof. induction cs as [|c cs IH]; simpl; [reflexivity|]. exact IH. Qed.

Lemma chunk_log_app conn cs1 cs2 :
  chunk_log conn (cs1 ++ cs2) = chunk_log conn cs1 ++ chunk_log conn cs2.
Proof. apply flat_map_app. Qed.

Lemma dial_log_writes host answers n : forall from, writes_of (dial_log host answers from n) = [].
Proof. induction n as [|n IH]; intros from; simpl; [reflexivity|]. apply IH. Qed.

Lemma dial_log_reads host answers n : forall from, reads_of (dial_log host answers from n) = [].
Proof. induction n as [|n IH]; intros from; simpl; [reflexivity|]. apply IH. Qed.

Lemma dial_log_sleeps host answers n :
  forall from, sleeps_of (dial_log host answers from n) = repeat (3 * time_Second)%Z n.
Proof.
  induction n as [|n IH]; intros from; [reflexivity|].
  cbn [dial_log]. rewrite sleeps_of_app, IH. reflexivity.
Qed.

Lemma dial_log_dials host answers n :
  forall from, count is_Dial (dial_log host answers from n) = n + 1.
Proof.
  induction n as [|n IH]; intros from; [reflexivity|].
  cbn [dial_log]. rewrite count_app, IH. reflexivity.
Qed.

Lemma dial_log_ReadFile host answers n :
  forall from, count is_ReadFile (dial_log host answers from n) = 0.
Proof.
  induction n as [|n IH]; intros from; [reflexivity|].
  cbn [dial_log]. rewrite count_app, IH. reflexivity.
Qed.

Lemma dial_log_Open host answers n :
  forall from, count is_Open (dial_log host answers from n) = 0.
Proof.
  induction n as [|n IH]; intros from; [reflexivity|].
  cbn [dial_log]. rewrite count_app, IH. reflexivity.
Qed.

Lemma input_log_writes f d a c : writes_of (input_log f d a c) = [].
Proof.
  unfold input_log. rewrite !writes_of_app, checksum_log_writes. reflexivity.
Qed.

Lemma input_log_reads f d a c : reads_of (input_log f d a c) = [].
Proof.
  unfold input_log. rewrite !reads_of_app, checksum_log_reads. reflexivity.
Qed.

Lemma input_log_sleeps f d a c : sleeps_of (input_log f d a c) = [].
Proof.
  unfold input_log. rewrite !sleeps_of_app, checksum_log_sleeps. reflexivity.
Qed.

Lemma input_log_dials f d a c : count is_Dial (input_log f d a c) = 0.
Proof.
  unfold input_log. rewrite !count_app, checksum_log_dials. reflexivity.
Qed.

Lemma input_log_ReadFile f d a c : count is_ReadFile (input_log f d a c) = 1.
Proof.
  unfold input_log. rewrite !count_app, checksum_log_ReadFile. reflexivity.
Qed.

Lemma input_log_Open f d a c : count is_Open (input_log f d a c) = 1.
Proof.
  unfold input_log. rewrite !count_app, checksum_log_Open. reflexivity.
Qed.

Lemma V110_connected_log v f d a c n :
  log (V110_connected v f d a c n) =
  input_log f d a c ++ dial_log V110.SERVER_IP (dial_result v) 0 n.
Proof.
  unfold V110_connected, after_dial, after_input, after_checksum, input_log.
  cbn [log record initial env dials]. log_eq.
Qed.

Lemma V110_connected_inbound v f d a c n :
  inbound (V110_connected v f d a c n) = incoming v.
Proof. reflexivity. Qed.

Lemma V110_connected_env v f d a c n : env (V110_connected v f d a c n) = v.
Proof. reflexivity. Qed.

(** *** Forward: from what the peer sends to how the transfer ends *)
Lemma transfer_run_acked (conn : Conn) (data : list byte) (crc : Z) (w : World)
      (next : list byte) :
  inbound w = acks (List.length (chunks data)) ++ next ->
  exists w',
    transfer_run conn data crc w =
      (if negb (delivers CRC_OK_MSG next) && stalls (env w) (String.length CRC_OK_MSG) next
       then Stalled w' else Returned tt w')
    /\ log w' = log w ++ header_calls conn data ++ chunk_log conn (chunks data)
                      ++ verification_calls conn crc ++ verdict_calls conn (env w) next.
Proof.
  intros Hin. unfold transfer_run, verdict_calls.
  destruct (step_Write conn (size_header data) w) as [x ->].
  match goal with |- context [chunks_run conn _ ?w0] =>
    rewrite (chunks_run_acked conn (chunks data) w0 next Hin) end.
  cbn [env reading dials writes inbound log record].
  match goal with |- context [verification_run conn crc ?w0] => set (w1 := w0) end.
  destruct (delivers CRC_OK_MSG next) eqn:Hd.
  - destruct (verification_run_delivered conn crc w1 Hd) as (w2 & -> & Hl).
    eexists. split; [reflexivity|].
    cbn [log record]. rewrite Hl. subst w1. cbn [log].
    unfold header_calls. log_eq.
  - destruct (stalls (env w) (String.length CRC_OK_MSG) next) eqn:Hs.
    + destruct (verification_run_stalled conn crc w1 Hs) as (w2 & -> & Hl).
      exists w2. split; [reflexivity|].
      rewrite Hl. subst w1. cbn [log].
      unfold header_calls. log_eq.
    + assert (Hr : refuses (env w1) CRC_OK_MSG (inbound w1) = true).
      { unfold refuses. subst w1. cbn [env inbound]. rewrite Hs, Hd. reflexivity. }
      destruct (verification_run_refused conn crc w1 Hr) as (w2 & -> & Hl).
      eexists. split; [reflexivity|].
      cbn [log record]. rewrite Hl. subst w1. cbn [log].
      unfold header_calls. log_eq.
Qed.

Lemma split_at {A} (l : list A) (k : nat) (d : A) :
  k < List.length l -> l = firstn k l ++ nth k l d :: skipn (S k) l.
Proof.
  revert k. induction l as [|a l IH]; intros k H; simpl in H; [lia|].
  destruct k as [|k]; simpl; [reflexivity|].
  f_equal. apply IH. lia.
Qed.

Lemma firstn_S_nth {A} (l : list A) (k : nat) (d : A) :
  k < List.length l -> firstn (S k) l = firstn k l ++ [nth k l d].
Proof.
  revert k. induction l as [|a l IH]; intros k H; simpl in H; [lia|].
  destruct k as [|k]; [reflexivity|].
  change (firstn (S (S k)) (a :: l)) with (a :: firstn (S k) l).
  rewrite IH by lia. reflexivity.
Qed.

Lemma transfer_run_refused (conn : Conn) (data : list byte) (crc : Z) (w : World)
      (k : nat) (next : list byte) :
  k < List.length (chunks data) ->
  inbound w = acks k ++ next ->
  refuses (env w) ACK_MSG next = true ->
  exists w',
    transfer_run conn data crc w = Returned tt w'
    /\ log w' = log w ++ header_calls conn data ++ chunk_log conn (firstn k (chunks data))
                      ++ refused_chunk conn (nth k (chunks data) [])
                      ++ [call (Conn_Close conn)].
Proof.
  intros Hk Hin Href. unfold transfer_run.
  destruct (step_Write conn (size_header data) w) as [x ->].
  match goal with |- context [chunks_run conn _ ?w0] =>
    pose proof (chunks_run_refused conn (firstn k (chunks data)) (nth k (chunks data) [])
                  (skipn (S k) (chunks data)) w0 next) as E end.
  rewrite <- (split_at (chunks data) k [] Hk) in E.
  rewrite E.
  - eexists. split; [reflexivity|].
    cbn [log record]. unfold header_calls, refused_chunk. log_eq.
  - cbn [inbound record]. rewrite length_firstn, Nat.min_l by lia. exact Hin.
  - exact Href.
Qed.

Lemma transfer_run_stalled (conn : Conn) (data : list byte) (crc : Z) (w : World)
      (k : nat) (next : list byte) :
  k < List.length (chunks data) ->
  inbound w = acks k ++ next ->
  stalls (env w) (String.length ACK_MSG) next = true ->
  exists w',
    transfer_run conn data crc w = Stalled w'
    /\ log w' = log w ++ header_calls conn data ++ chunk_log conn (firstn k (chunks data))
                      ++ unanswered_chunk conn (nth k (chunks data) []).
Proof.
  intros Hk Hin Hst. unfold transfer_run.
  destruct (step_Write conn (size_header data) w) as [x ->].
  match goal with |- context [chunks_run conn _ ?w0] =>
    pose proof (chunks_run_stalled conn (firstn k (chunks data)) (nth k (chunks data) [])
                  (skipn (S k) (chunks data)) w0 next) as E end.
  rewrite <- (split_at (chunks data) k [] Hk) in E.
  rewrite E.
  - eexists. split; [reflexivity|].
    cbn [log record]. unfold header_calls, unanswered_chunk. log_eq.
  - cbn [inbound record]. rewrite length_firstn, Nat.min_l by lia. exact Hin.
  - exact Hst.
Qed.

(* ===================================================================== *)
(** ** The claims about the transfer *)
(* ===================================================================== *)
Lemma prelude_writes v f d a c n : writes_of (prelude v f d a c n) = [].
Proof. unfold prelude. rewrite writes_of_app, input_log_writes, dial_log_writes. reflexivity. Qed.

Lemma prelude_reads v f d a c n : reads_of (prelude v f d a c n) = [].
Proof. unfold prelude. rewrite reads_of_app, input_log_reads, dial_log_reads. reflexivity. Qed.

Lemma prelude_sleeps v f d a c n :
  sleeps_of (prelude v f d a c n) = repeat (3 * time_Second)%Z n.
Proof. unfold prelude. rewrite sleeps_of_app, input_log_sleeps, dial_log_sleeps. reflexivity. Qed.

Lemma prelude_dials v f d a c n : count is_Dial (prelude v f d a c n) = n + 1.
Proof. unfold prelude. rewrite count_app, input_log_dials, dial_log_dials. reflexivity. Qed.

Lemma V110_Runs_transfer (v : Env) (firmwareFile : string) (firmwareData : list byte)
      (answers : list ReadStep) (firmwareCRC32 : Z) (n : nat) :
  files v firmwareFile = (firmwareData, None) ->
  opens v firmwareFile = inr answers ->
  checksum_of answers = (firmwareCRC32, None) ->
  connects_at (dial_result v) 0 n = true ->
  Runs (V110.sendFirmware firmwareFile) (initial v)
       (transfer_run V110_conn firmwareData firmwareCRC32
          (V110_connected v firmwareFile firmwareData answers firmwareCRC32 n)).
Proof.
  intros Hf Ho Hc Hd.
  exact (V110_transfer_Runs firmwareFile (initial v) firmwareData answers firmwareCRC32 n
           Hf Ho Hc Hd).
Qed.

Lemma last_is_nth {A} (l : list A) (d : A) :
  last l d = nth (List.length l - 1) l d.
Proof.
  induction l as [|a l IH]; [reflexivity|].
  destruct l as [|b l]; [reflexivity|].
  change (last (a :: b :: l) d) with (last (b :: l) d).
  rewrite IH. simpl. rewrite Nat.sub_0_r. reflexivity.
Qed.

Lemma chunks_last_length (data : list byte) :
  0 < List.length data ->
  List.length (last (chunks data) []) =
  List.length data - BUFFER_SIZE * ((List.length data - 1) / BUFFER_SIZE).
Proof.
  intros Hpos.
  pose proof (chunks_length data) as Hlen.
  rewrite (chunk_count_last _ Hpos) in Hlen.
  rewrite last_is_nth, Hlen.
  replace (S ((List.length data - 1) / BUFFER_SIZE) - 1)
    with ((List.length data - 1) / BUFFER_SIZE) by lia.
  rewrite chunks_nth by lia.
  rewrite chunk_at_length.
  pose proof (Nat.div_mod_eq (List.length data - 1) BUFFER_SIZE) as Hdm.
  pose proof (Nat.mod_upper_bound (List.length data - 1) BUFFER_SIZE) as Hm.
  unfold BUFFER_SIZE in *. lia.
Qed.

(** C1. When the peer acknowledges every chunk, the payloads written
    between the size header and the checksum are [ceil(S/256)] chunks;
    chunk [k] is the slice of the image from offset [256 k] to
    [min (256 k + 256) S], so the chunks follow each other in ascending
    order without gap or overlap and none is longer than 256 bytes;
    concatenated in the order written they are the image; and for a
    non-empty image the last one has [S - 256 * floor((S - 1) / 256)]
    bytes. *)
Theorem chunk_loop_partitions_image :
  forall (v : Env) (firmwareFile : string) (firmwareData : list byte)
         (answers : list ReadStep) (firmwareCRC32 : Z) (n : nat) (next : list byte),
    files v firmwareFile = (firmwareData, None) ->
    opens v firmwareFile = inr answers ->
    checksum_of answers = (firmwareCRC32, None) ->
    connects_at (dial_result v) 0 n = true ->
    incoming v = acks (chunk_count (List.length firmwareData)) ++ next ->
    exists o cs,
      Runs (V110.sendFirmware firmwareFile) (initial v) o
      /\ writes_of (log (final o))
         = size_header firmwareData :: cs ++ [PutUint32 firmwareCRC32]
      /\ List.length cs = (List.length firmwareData + (256 - 1)) / 256
      /\ List.length firmwareData <= 256 * List.length cs < List.length firmwareData + 256
      /\ (forall k, k < List.length cs ->
            nth k cs [] = slice firmwareData (k * 256)
                                (Nat.min (k * 256 + 256) (List.length firmwareData))
            /\ List.length (nth k cs []) <= 256)
      /\ List.concat cs = firmwareData
      /\ (0 < List.length firmwareData ->
          List.length (last cs [])
          = List.length firmwareData - 256 * ((List.length firmwareData - 1) / 256)).
Proof.
  intros v firmwareFile firmwareData answers firmwareCRC32 n next Hf Ho Hc Hd Hin.
  pose proof (V110_Runs_transfer v firmwareFile firmwareData answers firmwareCRC32 n
                Hf Ho Hc Hd) as Hrun.
  rewrite <- chunks_length in Hin.
  destruct (transfer_run_acked V110_conn firmwareData firmwareCRC32
              (V110_connected v firmwareFile firmwareData answers firmwareCRC32 n)
              next Hin) as (w' & Hw' & Hlog).
  rewrite V110_connected_log in Hlog. fold (prelude v firmwareFile firmwareData answers firmwareCRC32 n) in Hlog.
  exists (transfer_run V110_conn firmwareData firmwareCRC32
            (V110_connected v firmwareFile firmwareData answers firmwareCRC32 n)),
         (chunks firmwareData).
  split; [exact Hrun|].
  split.
  { assert (Hfinal : log (final (transfer_run V110_conn firmwareData firmwareCRC32
              (V110_connected v firmwareFile firmwareData answers firmwareCRC32 n))) = log w').
    { rewrite Hw'. destruct (_ && _); reflexivity. }
    rewrite Hfinal, Hlog.
    rewrite !writes_of_app, prelude_writes, chunk_log_writes.
    unfold verdict_calls.
    destruct (delivers CRC_OK_MSG next); [|destruct (stalls _ _ _)]; reflexivity. }
  pose proof (chunks_length firmwareData) as Hlen.
  split; [exact Hlen|].
  split.
  { rewrite Hlen. unfold chunk_count, BUFFER_SIZE.
    pose proof (Nat.div_mod_eq (List.length firmwareData + (256 - 1)) 256) as Hdm.
    pose proof (Nat.mod_upper_bound (List.length firmwareData + (256 - 1)) 256) as Hm.
    lia. }
  split.
  { intros k Hk. rewrite chunks_nth by exact Hk. split.
    - reflexivity.
    - rewrite chunk_at_length. unfold BUFFER_SIZE. lia. }
  split; [apply chunks_concat|].
  apply chunks_last_length.
Qed.

(** C2. After each chunk the engine reads exactly three bytes.  When the
    peer acknowledges the first [k] chunks and the read after chunk [k]
    fails or brings other bytes than "ACK", the run is over at once: chunk
    [k] is the last payload written, no checksum is written, the failure of
    the transmission is printed, the connection is closed and
    [sendFirmware] returns.  When instead the peer falls silent, the run
    stays in that read for ever. *)
Theorem refused_ack_ends_transfer :
  forall (v : Env) (firmwareFile : string) (firmwareData : list byte)
         (answers : list ReadStep) (firmwareCRC32 : Z) (n k : nat) (next : list byte),
    files v firmwareFile = (firmwareData, None) ->
    opens v firmwareFile = inr answers ->
    checksum_of answers = (firmwareCRC32, None) ->
    connects_at (dial_result v) 0 n = true ->
    k < List.length (chunks firmwareData) ->
    incoming v = acks k ++ next ->
    (refuses v ACK_MSG next = true ->
     exists w',
       Runs (V110.sendFirmware firmwareFile) (initial v) (Returned tt w')
       /\ log w' = prelude v firmwareFile firmwareData answers firmwareCRC32 n
                   ++ header_calls V110_conn firmwareData
                   ++ chunk_log V110_conn (firstn k (chunks firmwareData))
                   ++ [ call (Conn_Write V110_conn (nth k (chunks firmwareData) []));
                        call (io_ReadFull V110_conn 3);
                        transmission_failed;
                        call (Conn_Close V110_conn) ]
       /\ writes_of (log w') = size_header firmwareData :: firstn (S k) (chunks firmwareData)
       /\ reads_of (log w') = repeat 3 (S k))
    /\ (stalls v 3 next = true ->
        exists w',
          Runs (V110.sendFirmware firmwareFile) (initial v) (Stalled w')
          /\ log w' = prelude v firmwareFile firmwareData answers firmwareCRC32 n
                      ++ header_calls V110_conn firmwareData
                      ++ chunk_log V110_conn (firstn k (chunks firmwareData))
                      ++ [ call (Conn_Write V110_conn (nth k (chunks firmwareData) []));
                           call (io_ReadFull V110_conn 3) ]).
Proof.
  intros v firmwareFile firmwareData answers firmwareCRC32 n k next Hf Ho Hc Hd Hk Hin.
  pose proof (V110_Runs_transfer v firmwareFile firmwareData answers firmwareCRC32 n
                Hf Ho Hc Hd) as Hrun.
  split.
  - intros Href.
    destruct (transfer_run_refused V110_conn firmwareData firmwareCRC32
                (V110_connected v firmwareFile firmwareData answers firmwareCRC32 n)
                k next Hk Hin Href) as (w' & Hw' & Hlog).
    rewrite Hw' in Hrun. rewrite V110_connected_log in Hlog.
    fold (prelude v firmwareFile firmwareData answers firmwareCRC32 n) in Hlog.
    exists w'. split; [exact Hrun|].
    split; [rewrite Hlog; unfold refused_chunk; log_eq|].
    split.
    + rewrite Hlog, !writes_of_app, prelude_writes, chunk_log_writes.
      rewrite (firstn_S_nth (chunks firmwareData) k [] Hk). reflexivity.
    + rewrite Hlog, !reads_of_app, prelude_reads, chunk_log_reads.
      rewrite length_firstn, Nat.min_l by lia.
      change (S k) with (1 + k). rewrite Nat.add_comm, repeat_app. reflexivity.
  - intros Hst.
    destruct (transfer_run_stalled V110_conn firmwareData firmwareCRC32
                (V110_connected v firmwareFile firmwareData answers firmwareCRC32 n)
                k next Hk Hin Hst) as (w' & Hw' & Hlog).
    rewrite Hw' in Hrun. rewrite V110_connected_log in Hlog.
    fold (prelude v firmwareFile firmwareData answers firmwareCRC32 n) in Hlog.
    exists w'. split; [exact Hrun|].
    rewrite Hlog. unfold unanswered_chunk. log_eq.
Qed.

(** C3. When the peer acknowledges every chunk, the engine writes the
    checksum and reads exactly six bytes.  If they are "CRC_OK" the success
    line is printed; if the read fails or brings other bytes, the line of
    the failed verification is printed.  Either way the whole image and the
    checksum have been written before, the connection is closed and
    [sendFirmware] returns as usual: the process does not exit. *)
Theorem checksum_handshake :
  forall (v : Env) (firmwareFile : string) (firmwareData : list byte)
         (answers : list ReadStep) (firmwareCRC32 : Z) (n : nat) (next : list byte),
    files v firmwareFile = (firmwareData, None) ->
    opens v firmwareFile = inr answers ->
    checksum_of answers = (firmwareCRC32, None) ->
    connects_at (dial_result v) 0 n = true ->
    incoming v = acks (chunk_count (List.length firmwareData)) ++ next ->
    stalls v 6 next = false ->
    exists w',
      Runs (V110.sendFirmware firmwareFile) (initial v) (Returned tt w')
      /\ log w' = prelude v firmwareFile firmwareData answers firmwareCRC32 n
                  ++ header_calls V110_conn firmwareData
                  ++ chunk_log V110_conn (chunks firmwareData)
                  ++ [ call (Conn_Write V110_conn (PutUint32 firmwareCRC32));
                       said_completed firmwareCRC32;
                       call (io_ReadFull V110_conn 6);
                       (if delivers CRC_OK_MSG next
                        then verification_passed else verification_failed);
                       call (Conn_Close V110_conn) ]
      /\ writes_of (log w')
         = size_header firmwareData :: chunks firmwareData ++ [PutUint32 firmwareCRC32]
      /\ List.concat (chunks firmwareData) = firmwareData.
Proof.
  intros v firmwareFile firmwareData answers firmwareCRC32 n next Hf Ho Hc Hd Hin Hst.
  pose proof (V110_Runs_transfer v firmwareFile firmwareData answers firmwareCRC32 n
                Hf Ho Hc Hd) as Hrun.
  rewrite <- chunks_length in Hin.
  destruct (transfer_run_acked V110_conn firmwareData firmwareCRC32
              (V110_connected v firmwareFile firmwareData answers firmwareCRC32 n)
              next Hin) as (w' & Hw' & Hlog).
  change 6 with (String.length CRC_OK_MSG) in Hst.
  rewrite V110_connected_env, Hst, andb_false_r in Hw'.
  rewrite Hw' in Hrun. rewrite V110_connected_log, V110_connected_env in Hlog.
  fold (prelude v firmwareFile firmwareData answers firmwareCRC32 n) in Hlog.
  unfold verdict_calls in Hlog. rewrite Hst in Hlog.
  exists w'. split; [exact Hrun|].
  split; [|split].
  - rewrite Hlog. unfold verification_calls.
    destruct (delivers CRC_OK_MSG next); log_eq.
  - rewrite Hlog, !writes_of_app, prelude_writes, chunk_log_writes.
    destruct (delivers CRC_OK_MSG next); reflexivity.
  - apply chunks_concat.
Qed.

(** *** The size header *)
Section Header.

Local Open Scope Z_scope.

Lemma byte_val_byte_of_Z (z : Z) : byte_val (byte_of_Z z) = z mod 256.
Proof.
  unfold byte_val, byte_of_Z.
  assert (Hz : 0 <= z mod 256 < 256) by (apply Z.mod_pos_bound; lia).
  destruct (Byte.of_N (Z.to_N (z mod 256))) as [b|] eqn:E.
  - apply Byte.to_of_N in E. rewrite E. apply Z2N.id. lia.
  - apply Byte.of_N_None_iff in E. lia.
Qed.

Lemma Uint32_PutUint32 (v : Z) : BigEndian_Uint32 (PutUint32 v) = v mod 2 ^ 32.
Proof.
  unfold BigEndian_Uint32, PutUint32.
  rewrite !byte_val_byte_of_Z.
  apply Z.bits_inj'. intros i Hi.
  change 256 with (2 ^ 8).
  rewrite !Z.lor_spec, !Z.shiftl_spec, !Z.testbit_mod_pow2 by lia.
  assert (Hcases : i < 8 \/ 8 <= i < 16 \/ 16 <= i < 24 \/ 24 <= i < 32 \/ 32 <= i) by lia.
  destruct Hcases as [H|[H|[H|[H|H]]]];
    repeat match goal with
           | |- context [?a <? ?b] => destruct (Z.ltb_spec a b); try lia
           end;
    rewrite ?(Z.testbit_neg_r _ (i - 8)), ?(Z.testbit_neg_r _ (i - 16)),
            ?(Z.testbit_neg_r _ (i - 24)) by lia;
    rewrite ?Z.shiftr_spec by lia;
    rewrite ?Z.sub_add;
    simpl; rewrite ?andb_false_r, ?orb_false_r; reflexivity.
Qed.

Lemma size_header_length (data : list byte) : List.length (size_header data) = 4%nat.
Proof. reflexivity. Qed.

Lemma size_header_decodes (data : list byte) :
  BigEndian_Uint32 (size_header data) = Z.of_nat (List.length data) mod 2 ^ 32.
Proof.
  unfold size_header, uint32. rewrite Uint32_PutUint32.
  apply Z.mod_mod. lia.
Qed.

End Header.

Lemma chunk_log_then_write (conn : Conn) (cs : list (list byte)) (tail : list LogEntry)
      (p : list byte) (rest : list LogEntry) :
  tail = call (Conn_Write conn p) :: rest ->
  exists p' rest', chunk_log conn cs ++ tail = call (Conn_Write conn p') :: rest'.
Proof.
  intros ->. destruct cs as [|c cs].
  - exists p, rest. reflexivity.
  - eexists. eexists. simpl. reflexivity.
Qed.

(** In every run that connects, what follows the prelude is the write of
    the size header, the creation of the progress bar and another write. *)
Lemma V110_header_first (v : Env) (firmwareFile : string) (firmwareData : list byte)
      (answers : list ReadStep) (firmwareCRC32 : Z) (n : nat) :
  files v firmwareFile = (firmwareData, None) ->
  opens v firmwareFile = inr answers ->
  checksum_of answers = (firmwareCRC32, None) ->
  connects_at (dial_result v) 0 n = true ->
  exists o p rest,
    Runs (V110.sendFirmware firmwareFile) (initial v) o
    /\ log (final o) = prelude v firmwareFile firmwareData answers firmwareCRC32 n
                       ++ call (Conn_Write V110_conn (size_header firmwareData))
                       :: call (progressbar_NewOptions (List.length firmwareData))
                       :: call (Conn_Write V110_conn p) :: rest.
Proof.
  intros Hf Ho Hc Hd.
  pose proof (V110_Runs_transfer v firmwareFile firmwareData answers firmwareCRC32 n
                Hf Ho Hc Hd) as Hrun.
  exists (transfer_run V110_conn firmwareData firmwareCRC32
            (V110_connected v firmwareFile firmwareData answers firmwareCRC32 n)).
  pose proof (transfer_run_end V110_conn firmwareData firmwareCRC32
                (V110_connected v firmwareFile firmwareData answers firmwareCRC32 n)) as Hend.
  destruct Hend as [w' Hl|w' Hl|w' Hl|j c w' Hj Hl|j c w' Hj Hl];
    rewrite V110_connected_log in Hl;
    fold (prelude v firmwareFile firmwareData answers firmwareCRC32 n) in Hl;
    cbn [final]; rewrite Hl; unfold header_calls; cbn [app];
    match goal with
    | |- context [chunk_log V110_conn ?cs ++ ?tail] =>
        destruct (chunk_log_then_write V110_conn cs tail _ _ eq_refl) as (p & rest & ->)
    end;
    exists p, rest; (split; [exact Hrun | reflexivity]).
Qed.

(** C6, as amended. For every firmware image of fewer than 2^32 bytes, the
    first bytes written to the connection are four bytes that hold the size
    of the image in big-endian order; nothing is written to or read from the
    connection before them, and the next call on the connection is again a
    write: no acknowledgment is read for the header. *)
Theorem size_header_first :
  forall (v : Env) (firmwareFile : string) (firmwareData : list byte)
         (answers : list ReadStep) (firmwareCRC32 : Z) (n : nat),
    files v firmwareFile = (firmwareData, None) ->
    opens v firmwareFile = inr answers ->
    checksum_of answers = (firmwareCRC32, None) ->
    connects_at (dial_result v) 0 n = true ->
    (Z.of_nat (List.length firmwareData) < 2 ^ 32)%Z ->
    exists o pre header p rest,
      Runs (V110.sendFirmware firmwareFile) (initial v) o
      /\ log (final o) = pre ++ call (Conn_Write V110_conn header)
                             :: call (progressbar_NewOptions (List.length firmwareData))
                             :: call (Conn_Write V110_conn p) :: rest
      /\ writes_of pre = []
      /\ reads_of pre = []
      /\ List.length header = 4
      /\ BigEndian_Uint32 header = Z.of_nat (List.length firmwareData).
Proof.
  intros v firmwareFile firmwareData answers firmwareCRC32 n Hf Ho Hc Hd Hsize.
  destruct (V110_header_first v firmwareFile firmwareData answers firmwareCRC32 n
              Hf Ho Hc Hd) as (o & p & rest & Hrun & Hlog).
  exists o, (prelude v firmwareFile firmwareData answers firmwareCRC32 n),
         (size_header firmwareData), p, rest.
  split; [exact Hrun|]. split; [exact Hlog|].
  split; [apply prelude_writes|]. split; [apply prelude_reads|].
  split; [reflexivity|].
  rewrite size_header_decodes. apply Z.mod_small. lia.
Qed.

(** C6, as stated, fails: for an image of 2^32 bytes the first four bytes
    written decode to 0, not to the size of the image. *)
Lemma size_header_wraps_at_4GiB :
  exists o pre header rest,
    Runs (V110.sendFirmware "firmware.bin") (initial env_4GiB) o
    /\ log (final o) = pre ++ call (Conn_Write V110_conn header) :: rest
    /\ writes_of pre = []
    /\ BigEndian_Uint32 header = 0%Z
    /\ Z.of_nat (List.length image_4GiB) = (2 ^ 32)%Z.
Proof.
  destruct (V110_header_first env_4GiB "firmware.bin" image_4GiB [] 0%Z 0
              eq_refl eq_refl eq_refl eq_refl) as (o & p & rest & Hrun & Hlog).
  exists o, (prelude env_4GiB "firmware.bin" image_4GiB [] 0%Z 0),
         (size_header image_4GiB). eexists.
  split; [exact Hrun|]. split; [exact Hlog|].
  split; [apply prelude_writes|].
  assert (Hlen : Z.of_nat (List.length image_4GiB) = (2 ^ 32)%Z).
  { unfold image_4GiB. rewrite repeat_length. apply Z2Nat.id. lia. }
  split; [|exact Hlen].
  rewrite size_header_decodes, Hlen. reflexivity.
Qed.

(** *** Runs that never end *)
Lemma Diverges_call {X R} (e : goE X) (k : X -> itree goE R) w x w' :
  step e w = Answer x w' -> Diverges (k x) w' ->
  Diverges (ITree.bind (ITree.trigger e) k) w.
Proof.
  intros H D n. destruct n as [|n]; [reflexivity|].
  rewrite exec_call. unfold step in H. rewrite H. apply D.
Qed.

Lemma Diverges_bind_rest {R T} (t : itree goE R) (k : R -> itree goE T) w r w1 :
  Runs t w (Returned r w1) -> Diverges (k r) w1 -> Diverges (ITree.bind t k) w.
Proof.
  intros Ht D n.
  destruct (exec n (ITree.bind t k) w) as [o|] eqn:E; [exfalso|reflexivity].
  destruct (Runs_bind_inv t k w o (ex_intro _ n E))
    as [(r' & w1' & Ht' & Hk)|[(c & w1' & Ht' & _)|(w1' & Ht' & _)]];
    pose proof (Runs_det _ _ _ _ Ht Ht') as Heq; try discriminate.
  injection Heq as <- <-.
  exact (Runs_not_Diverges _ _ _ Hk D).
Qed.

Lemma V110_never_connects (v : Env) (firmwareFile : string) (firmwareData : list byte)
      (answers : list ReadStep) (firmwareCRC32 : Z) :
  files v firmwareFile = (firmwareData, None) ->
  opens v firmwareFile = inr answers ->
  checksum_of answers = (firmwareCRC32, None) ->
  (forall j, dial_result v j <> None) ->
  Diverges (V110.sendFirmware firmwareFile) (initial v).
Proof.
  intros Hf Ho Hc Hd. unfold V110.sendFirmware.
  eapply Diverges_call.
  { unfold step. simpl. rewrite Hf. reflexivity. }
  simpl. eapply Diverges_call; [reflexivity|].
  eapply Diverges_bind_rest.
  { apply calculateCRC32_Runs. exact Ho. }
  rewrite Hc. simpl negb. cbv iota.
  eapply Diverges_call; [reflexivity|].
  apply Diverges_bind.
  apply dial_loop_Diverges. intros j. apply Hd.
Qed.

(** *** What every run that connects has in common *)
Lemma nth_error_split {A} (l : list A) (j : nat) (c : A) :
  nth_error l j = Some c -> firstn (S j) l = firstn j l ++ [c] /\ j < List.length l.
Proof.
  intros H.
  assert (Hj : j < List.length l) by (apply nth_error_Some; congruence).
  split; [|exact Hj].
  rewrite (firstn_S_nth l j c Hj). f_equal. f_equal.
  apply nth_error_nth. exact H.
Qed.

Lemma rest_facts (conn : Conn) (size : nat) (cs : list (list byte)) (tail : list LogEntry) :
  count is_Dial tail = 0 -> sleeps_of tail = [] ->
  count is_ReadFile tail = 0 -> count is_Open tail = 0 ->
  count is_Dial (call (progressbar_NewOptions size) :: chunk_log conn cs ++ tail) = 0
  /\ sleeps_of (call (progressbar_NewOptions size) :: chunk_log conn cs ++ tail) = []
  /\ count is_ReadFile (call (progressbar_NewOptions size) :: chunk_log conn cs ++ tail) = 0
  /\ count is_Open (call (progressbar_NewOptions size) :: chunk_log conn cs ++ tail) = 0
  /\ writes_of (call (progressbar_NewOptions size) :: chunk_log conn cs ++ tail)
     = cs ++ writes_of tail.
Proof.
  intros Hd Hs Hr Ho.
  change (call (progressbar_NewOptions size) :: chunk_log conn cs ++ tail)
    with ([call (progressbar_NewOptions size)] ++ chunk_log conn cs ++ tail).
  rewrite !count_app, !sleeps_of_app, !writes_of_app.
  rewrite chunk_log_dials, chunk_log_sleeps, chunk_log_ReadFile, chunk_log_Open,
          chunk_log_writes, Hd, Hs, Hr, Ho.
  repeat split; reflexivity.
Qed.

Lemma V110_connected_run (v : Env) (firmwareFile : string) (firmwareData : list byte)
      (answers : list ReadStep) (firmwareCRC32 : Z) (n : nat) :
  files v firmwareFile = (firmwareData, None) ->
  opens v firmwareFile = inr answers ->
  checksum_of answers = (firmwareCRC32, None) ->
  connects_at (dial_result v) 0 n = true ->
  exists o rest m,
    Runs (V110.sendFirmware firmwareFile) (initial v) o
    /\ log (final o) = prelude v firmwareFile firmwareData answers firmwareCRC32 n
                       ++ call (Conn_Write V110_conn (size_header firmwareData)) :: rest
    /\ count is_Dial rest = 0
    /\ sleeps_of rest = []
    /\ count is_ReadFile rest = 0
    /\ count is_Open rest = 0
    /\ size_header firmwareData :: writes_of rest
       = firstn m (all_payloads firmwareData firmwareCRC32).
Proof.
  intros Hf Ho Hc Hd.
  pose proof (V110_Runs_transfer v firmwareFile firmwareData answers firmwareCRC32 n
                Hf Ho Hc Hd) as Hrun.
  exists (transfer_run V110_conn firmwareData firmwareCRC32
            (V110_connected v firmwareFile firmwareData answers firmwareCRC32 n)).
  pose proof (transfer_run_end V110_conn firmwareData firmwareCRC32
                (V110_connected v firmwareFile firmwareData answers firmwareCRC32 n)) as Hend.
  assert (Hfull : forall tail,
             writes_of tail = [PutUint32 firmwareCRC32] ->
             size_header firmwareData :: chunks firmwareData ++ writes_of tail
             = firstn (List.length (all_payloads firmwareData firmwareCRC32))
                      (all_payloads firmwareData firmwareCRC32)).
  { intros tail ->. rewrite firstn_all. reflexivity. }
  assert (Hpart : forall j c tail,
             nth_error (chunks firmwareData) j = Some c ->
             writes_of tail = [c] ->
             size_header firmwareData :: firstn j (chunks firmwareData) ++ writes_of tail
             = firstn (S (S j)) (all_payloads firmwareData firmwareCRC32)).
  { intros j c tail Hj ->.
    destruct (nth_error_split _ _ _ Hj) as [Hs Hlt].
    unfold all_payloads. rewrite firstn_cons. f_equal.
    rewrite firstn_app, Hs.
    replace (S j - List.length (chunks firmwareData)) with 0 by lia.
    rewrite app_nil_r. reflexivity. }
  destruct Hend as [w' Hl|w' Hl|w' Hl|j c w' Hj Hl|j c w' Hj Hl];
    rewrite V110_connected_log in Hl;
    fold (prelude v firmwareFile firmwareData answers firmwareCRC32 n) in Hl;
    cbn [final]; unfold header_calls in Hl; cbn [app] in Hl;
    match type of Hl with
    | _ = _ ++ _ :: _ :: chunk_log _ ?cs ++ ?tail =>
        destruct (rest_facts V110_conn (List.length firmwareData) cs tail
                    eq_refl eq_refl eq_refl eq_refl) as (F1 & F2 & F3 & F4 & F5)
    end;
    eexists; eexists;
    (split; [exact Hrun|]); (split; [exact Hl|]);
    (split; [exact F1|]); (split; [exact F2|]);
    (split; [exact F3|]); (split; [exact F4|]);
    rewrite F5.
  - apply Hfull. reflexivity.
  - apply Hfull. reflexivity.
  - apply Hfull. reflexivity.
  - apply (Hpart j c); [exact Hj | reflexivity].
  - apply (Hpart j c); [exact Hj | reflexivity].
Qed.

(** C7. The connection loop has no limit: whatever the number [n] of
    attempts that fail before one connects, the engine dials exactly
    [n + 1] times, sleeps three seconds after each failed attempt and at no
    other time, and goes on to write the size header; when no attempt ever
    connects the run never ends.  Nothing else is tried twice: the file is
    loaded once and opened once, and the payloads written are an initial
    part of header, chunks and checksum, each at most once and in order. *)
Theorem connect_retries_without_limit :
  forall (v : Env) (firmwareFile : string) (firmwareData : list byte)
         (answers : list ReadStep) (firmwareCRC32 : Z),
    files v firmwareFile = (firmwareData, None) ->
    opens v firmwareFile = inr answers ->
    checksum_of answers = (firmwareCRC32, None) ->
    (forall n, connects_at (dial_result v) 0 n = true ->
       exists o rest m,
         Runs (V110.sendFirmware firmwareFile) (initial v) o
         /\ log (final o)
            = input_log firmwareFile firmwareData answers firmwareCRC32
              ++ dial_log V110.SERVER_IP (dial_result v) 0 n
              ++ call (Conn_Write V110_conn (size_header firmwareData)) :: rest
         /\ count is_Dial (log (final o)) = n + 1
         /\ sleeps_of (log (final o)) = repeat (3 * time_Second)%Z n
         /\ count is_ReadFile (log (final o)) = 1
         /\ count is_Open (log (final o)) = 1
         /\ writes_of (log (final o)) = firstn m (all_payloads firmwareData firmwareCRC32))
    /\ ((forall j, dial_result v j <> None) ->
        Diverges (V110.sendFirmware firmwareFile) (initial v)).
Proof.
  intros v firmwareFile firmwareData answers firmwareCRC32 Hf Ho Hc.
  split.
  - intros n Hd.
    destruct (V110_connected_run v firmwareFile firmwareData answers firmwareCRC32 n
                Hf Ho Hc Hd) as (o & rest & m & Hrun & Hlog & F1 & F2 & F3 & F4 & F5).
    exists o, rest, m.
    split; [exact Hrun|].
    split; [rewrite Hlog; unfold prelude; rewrite <- app_assoc; reflexivity|].
    rewrite Hlog.
    change (call (Conn_Write V110_conn (size_header firmwareData)) :: rest)
      with ([call (Conn_Write V110_conn (size_header firmwareData))] ++ rest).
    rewrite !count_app, !sleeps_of_app, !writes_of_app.
    rewrite prelude_dials, prelude_sleeps, prelude_writes, F1, F2, F3, F4.
    unfold prelude. rewrite !count_app.
    rewrite input_log_ReadFile, input_log_Open, dial_log_ReadFile, dial_log_Open.
    repeat split.
    + simpl. lia.
    + rewrite !app_nil_r. reflexivity.
    + exact F5.
  - intros Hnever.
    exact (V110_never_connects v firmwareFile firmwareData answers firmwareCRC32
             Hf Ho Hc Hnever).
Qed.

(* ===================================================================== *)
(** ** Writes whose result nobody looks at *)
(* ===================================================================== *)
(** A read on the connection does not look at the results of the writes;
    a write answers with them, and nothing else of the world depends on
    them. *)
Lemma step_ReadFull_set_env (c : Conn) (n : nat) (v' : Env) (w : World) :
  incoming_end v' = incoming_end (env w) ->
  step (io_ReadFull c n) (set_env v' w) = reply_map (set_env v') (step (io_ReadFull c n) w).
Proof.
  intros H. unfold step. cbn [handle]. unfold read_full.
  cbn [inbound env record set_env]. rewrite H.
  destruct (n <=? List.length (inbound w)); [reflexivity|].
  destruct (incoming_end (env w)); reflexivity.
Qed.

Lemma step_Write_set_env (c : Conn) (b : list byte) (v' : Env) (w : World) :
  exists x x' w1,
    step (Conn_Write c b) w = Answer x w1
    /\ step (Conn_Write c b) (set_env v' w) = Answer x' (set_env v' w1)
    /\ env w1 = env w.
Proof.
  unfold step. cbn [handle]. cbn [writes env record set_env].
  destruct (write_result (env w) (writes w)); destruct (write_result v' (writes w));
    eexists; eexists; eexists; (split; [reflexivity|]); split; reflexivity.
Qed.

Lemma chunks_run_set_env (conn : Conn) (v' : Env) (cs : list (list byte)) :
  forall w : World,
    incoming_end v' = incoming_end (env w) ->
    chunks_run conn cs (set_env v' w) = outcome_map (set_env v') (chunks_run conn cs w).
Proof.
  induction cs as [|c cs IH]; intros w Hend; [reflexivity|].
  cbn [chunks_run].
  destruct (step_Write_set_env conn c v' w) as (x & x' & w1 & -> & -> & Henv1).
  rewrite step_ReadFull_set_env by (rewrite Henv1; exact Hend).
  pose proof (step_env (io_ReadFull conn (String.length ACK_MSG)) w1) as Henv2.
  destruct (step (io_ReadFull conn (String.length ACK_MSG)) w1)
    as [[ackBuffer err] w2|code w2|w2]; cbn [reply_map reply_world] in Henv2 |- *;
    try reflexivity.
  destruct (negb (is_nil err) || negb (string_of_list_byte ackBuffer =? ACK_MSG)%string);
    [reflexivity|].
  apply (IH (record (call (progressbar_Add (List.length c))) w2)).
  cbn [env record]. rewrite Henv2, Henv1. exact Hend.
Qed.

Lemma verification_run_set_env (conn : Conn) (v' : Env) (crc : Z) (w : World) :
  incoming_end v' = incoming_end (env w) ->
  verification_run conn crc (set_env v' w)
  = outcome_map (set_env v') (verification_run conn crc w).
Proof.
  intros Hend. unfold verification_run.
  destruct (step_Write_set_env conn (PutUint32 crc) v' w) as (x & x' & w1 & -> & -> & Henv1).
  change (record (said_completed crc) (set_env v' w1))
    with (set_env v' (record (said_completed crc) w1)).
  rewrite step_ReadFull_set_env by (cbn [env record]; rewrite Henv1; exact Hend).
  destruct (step (io_ReadFull conn (String.length CRC_OK_MSG)) (record (said_completed crc) w1))
    as [[crcResponse err] w2|code w2|w2]; cbn [reply_map]; try reflexivity.
  destruct (negb (is_nil err) || negb (string_of_list_byte crcResponse =? CRC_OK_MSG)%string);
    reflexivity.
Qed.

Lemma chunks_run_env (conn : Conn) (cs : list (list byte)) :
  forall w : World, env (final (chunks_run conn cs w)) = env w.
Proof.
  induction cs as [|c cs IH]; intros w; [reflexivity|].
  cbn [chunks_run].
  pose proof (step_env (Conn_Write conn c) w) as H1.
  destruct (step (Conn_Write conn c) w) as [x w1|code w1|w1];
    cbn [reply_world final] in H1 |- *; try exact H1.
  pose proof (step_env (io_ReadFull conn (String.length ACK_MSG)) w1) as H2.
  destruct (step (io_ReadFull conn (String.length ACK_MSG)) w1)
    as [[ackBuffer err] w2|code w2|w2];
    cbn [reply_world final] in H2 |- *; try congruence.
  destruct (negb (is_nil err) || negb (string_of_list_byte ackBuffer =? ACK_MSG)%string).
  - cbn [final env record]. congruence.
  - rewrite IH. cbn [env record]. congruence.
Qed.

Lemma transfer_run_set_env (conn : Conn) (v' : Env) (data : list byte) (crc : Z) (w : World) :
  incoming_end v' = incoming_end (env w) ->
  transfer_run conn data crc (set_env v' w)
  = outcome_map (set_env v') (transfer_run conn data crc w).
Proof.
  intros Hend. unfold transfer_run.
  destruct (step_Write_set_env conn (size_header data) v' w) as (x & x' & w1 & -> & -> & Henv1).
  change (record (call (progressbar_NewOptions (List.length data))) (set_env v' w1))
    with (set_env v' (record (call (progressbar_NewOptions (List.length data))) w1)).
  set (w2 := record (call (progressbar_NewOptions (List.length data))) w1).
  assert (Henv2 : env w2 = env w) by exact Henv1.
  rewrite chunks_run_set_env by (rewrite Henv2; exact Hend).
  pose proof (chunks_run_env conn (chunks data) w2) as Henv3.
  destruct (chunks_run conn (chunks data) w2) as [[|] w3|code w3|w3];
    cbn [outcome_map final] in *; try reflexivity.
  rewrite verification_run_set_env by (rewrite Henv3, Henv2; exact Hend).
  destruct (verification_run conn crc w3) as [[] w4|code w4|w4]; reflexivity.
Qed.

(** *** From a run that ends to the attempt that connected *)
Lemma exec_call_Some {X R} (e : goE X) (k : X -> itree goE R) (n : nat) w x w' o :
  exec n (ITree.bind (ITree.trigger e) k) w = Some o ->
  step e w = Answer x w' ->
  exists n', n = S n' /\ exec n' (k x) w' = Some o.
Proof.
  intros E H. destruct n as [|n]; [discriminate|].
  rewrite exec_call in E. unfold step in H. rewrite H in E.
  exists n. split; [reflexivity | exact E].
Qed.

Lemma exec_bind_Some {R T} (t : itree goE R) (k : R -> itree goE T) (n : nat) w r w1 o :
  exec n (ITree.bind t k) w = Some o ->
  Runs t w (Returned r w1) ->
  exec n (k r) w1 = Some o.
Proof.
  intros E Ht. pose proof E as E'. rewrite exec_bind_stop in E'.
  destruct (exec n t w) as [o1|] eqn:E1; [|discriminate].
  assert (o1 = Returned r w1) as ->.
  { eapply Runs_det; [exists n; exact E1 | exact Ht]. }
  exact (exec_bind_rest k n t w r w1 o E1 E).
Qed.

Lemma first_connect (answers : nat -> error) (m : nat) :
  forall from,
    (exists n, n < m /\ connects_at answers from n = true)
    \/ (forall j, j < m -> answers (from + j) <> None).
Proof.
  induction m as [|m IH]; intros from.
  - right. intros j Hj. lia.
  - destruct (answers from) as [e|] eqn:E.
    + destruct (IH (S from)) as [(n & Hn & Hc)|Hall].
      * left. exists (S n). split; [lia|]. simpl. rewrite E. exact Hc.
      * right. intros j Hj. destruct j as [|j].
        -- rewrite Nat.add_0_r, E. discriminate.
        -- replace (from + S j) with (S from + j) by lia. apply Hall. lia.
    + left. exists 0. split; [lia|]. simpl. rewrite E. reflexivity.
Qed.

Lemma V110_Runs_connects (v : Env) (firmwareFile : string) (firmwareData : list byte)
      (answers : list ReadStep) (firmwareCRC32 : Z) (o : Outcome unit) :
  files v firmwareFile = (firmwareData, None) ->
  opens v firmwareFile = inr answers ->
  checksum_of answers = (firmwareCRC32, None) ->
  Runs (V110.sendFirmware firmwareFile) (initial v) o ->
  exists n, connects_at (dial_result v) 0 n = true.
Proof.
  intros Hf Ho Hc [m E].
  destruct (first_connect (dial_result v) m 0) as [(n & _ & Hn)|Hall];
    [exists n; exact Hn | exfalso].
  unfold V110.sendFirmware in E.
  eapply exec_call_Some in E; [|unfold step; simpl; rewrite Hf; reflexivity].
  destruct E as (m1 & -> & E). simpl in E.
  eapply exec_call_Some in E; [|reflexivity].
  destruct E as (m2 & -> & E).
  eapply exec_bind_Some in E; [|apply calculateCRC32_Runs; exact Ho].
  rewrite Hc in E. simpl negb in E. cbv iota in E.
  eapply exec_call_Some in E; [|reflexivity].
  destruct E as (m3 & -> & E).
  rewrite exec_bind_stop in E.
  rewrite dial_loop_exec_None in E; [discriminate|].
  intros j Hj. simpl. apply Hall. lia.
Qed.

Lemma with_write_result_connected (wr : nat -> error) v f d a c n :
  V110_connected (with_write_result wr v) f d a c n
  = set_env (with_write_result wr v) (V110_connected v f d a c n).
Proof. reflexivity. Qed.

Lemma with_write_result_back (wr : nat -> error) (v : Env) :
  with_write_result (write_result v) (with_write_result wr v) = v.
Proof. destruct v; reflexivity. Qed.

Lemma V110_other_write_results (v : Env) (wr : nat -> error) (firmwareFile : string)
      (o : Outcome unit) :
  Runs (V110.sendFirmware firmwareFile) (initial v) o ->
  Runs (V110.sendFirmware firmwareFile) (initial (with_write_result wr v))
       (outcome_map (set_env (with_write_result wr v)) o).
Proof.
  intros Hrun.
  set (v' := with_write_result wr v).
  destruct (files v firmwareFile) as [d [e|]] eqn:Hf.
  - pose proof (V110_not_found_Runs firmwareFile (initial v) d e Hf) as H.
    rewrite (Runs_det _ _ _ _ Hrun H).
    exact (V110_not_found_Runs firmwareFile (initial v') d e Hf).
  - destruct (opens v firmwareFile) as [e|answers] eqn:Ho.
    + pose proof (V110_no_open_Runs firmwareFile (initial v) d e Hf Ho) as H.
      rewrite (Runs_det _ _ _ _ Hrun H).
      exact (V110_no_open_Runs firmwareFile (initial v') d e Hf Ho).
    + destruct (checksum_of answers) as [c [e|]] eqn:Hc.
      * pose proof (V110_read_error_Runs firmwareFile (initial v) d answers c e Hf Ho Hc) as H.
        rewrite (Runs_det _ _ _ _ Hrun H).
        exact (V110_read_error_Runs firmwareFile (initial v') d answers c e Hf Ho Hc).
      * destruct (V110_Runs_connects v firmwareFile d answers c o Hf Ho Hc Hrun) as [n Hn].
        pose proof (V110_Runs_transfer v firmwareFile d answers c n Hf Ho Hc Hn) as H.
        rewrite (Runs_det _ _ _ _ Hrun H).
        pose proof (V110_Runs_transfer v' firmwareFile d answers c n Hf Ho Hc Hn) as H'.
        unfold v' in H'. rewrite with_write_result_connected in H'.
        rewrite transfer_run_set_env in H' by reflexivity.
        exact H'.
Qed.

(** C10. No write on the connection is checked.  Whatever results the
    writes of the size header, of the chunks and of the checksum have, a
    run that ends ends in the same way with the same log: what is printed,
    what is written and read, and whether [sendFirmware] returns or waits
    for a token that does not come, depend on the reads of the
    acknowledgment and verification tokens only.  A run that never ends
    (no attempt to connect succeeds) never ends with other results of the
    writes either. *)
Theorem write_results_ignored :
  forall (v : Env) (wr : nat -> error) (firmwareFile : string),
    (forall o : Outcome unit,
        Runs (V110.sendFirmware firmwareFile) (initial v) o ->
        Runs (V110.sendFirmware firmwareFile) (initial (with_write_result wr v))
             (outcome_map (set_env (with_write_result wr v)) o)
        /\ log (final (outcome_map (set_env (with_write_result wr v)) o)) = log (final o))
    /\ (Diverges (V110.sendFirmware firmwareFile) (initial v) ->
        Diverges (V110.sendFirmware firmwareFile) (initial (with_write_result wr v))).
Proof.
  intros v wr firmwareFile. split.
  - intros o Hrun. split; [|destruct o; reflexivity].
    now apply V110_other_write_results.
  - intros Hdiv fuel.
    destruct (exec fuel (V110.sendFirmware firmwareFile) (initial (with_write_result wr v)))
      as [o'|] eqn:He; [|reflexivity].
    assert (Hrun : Runs (V110.sendFirmware firmwareFile) (initial (with_write_result wr v)) o')
      by (exists fuel; exact He).
    apply (V110_other_write_results _ (write_result v)) in Hrun.
    rewrite with_write_result_back in Hrun.
    destruct Hrun as [fuel' Hrun]. rewrite Hdiv in Hrun. discriminate.
Qed.

(* ===================================================================== *)
(** ** The checksum that is sent *)
(* ===================================================================== *)
Lemma V110_checksum_sent (v : Env) (firmwareFile : string) (firmwareData : list byte)
      (answers : list ReadStep) (content : list byte) (n : nat) (next : list byte) :
  files v firmwareFile = (firmwareData, None) ->
  opens v firmwareFile = inr answers ->
  stream_of answers = (content, None) ->
  connects_at (dial_result v) 0 n = true ->
  incoming v = acks (chunk_count (List.length firmwareData)) ++ next ->
  exists o cs,
    Runs (V110.sendFirmware firmwareFile) (initial v) o
    /\ writes_of (log (final o))
       = size_header firmwareData :: cs ++ [PutUint32 (CRC32_IEEE.checksum content)]
    /\ List.concat cs = firmwareData.
Proof.
  intros Hf Ho Hs Hd Hin.
  assert (Hc : checksum_of answers = (CRC32_IEEE.checksum content, None)).
  { unfold checksum_of. rewrite Hs, ChecksumIEEE_standard. reflexivity. }
  pose proof (V110_Runs_transfer v firmwareFile firmwareData answers _ n Hf Ho Hc Hd) as Hrun.
  rewrite <- chunks_length in Hin.
  destruct (transfer_run_acked V110_conn firmwareData (CRC32_IEEE.checksum content)
              (V110_connected v firmwareFile firmwareData answers
                 (CRC32_IEEE.checksum content) n)
              next Hin) as (w' & Hw' & Hlog).
  rewrite V110_connected_log in Hlog.
  fold (prelude v firmwareFile firmwareData answers (CRC32_IEEE.checksum content) n) in Hlog.
  eexists. exists (chunks firmwareData).
  split; [exact Hrun|].
  split; [|apply chunks_concat].
  rewrite Hw'.
  assert (Hfinal : forall b : bool, log (final (if b then Stalled w' else Returned tt w')) = log w')
    by (intros []; reflexivity).
  rewrite Hfinal, Hlog.
  rewrite !writes_of_app, prelude_writes, chunk_log_writes.
  unfold verdict_calls.
  destruct (delivers CRC_OK_MSG next); [|destruct (stalls _ _ _)]; reflexivity.
Qed.

(** C9. The checksum sent after the chunks is the CRC-32 of what the
    second read of the path delivered ([calculateCRC32]), while the chunks
    are cut from the image the first read loaded.  When both reads saw the
    same content the checksum sent is the CRC-32 of the concatenated
    chunks; when the file changed in between it need not be, as the run in
    [changed_file_env] shows. *)
Theorem checksum_is_of_second_read :
  forall (v : Env) (firmwareFile : string) (firmwareData : list byte)
         (answers : list ReadStep) (content : list byte) (n : nat) (next : list byte),
    files v firmwareFile = (firmwareData, None) ->
    opens v firmwareFile = inr answers ->
    stream_of answers = (content, None) ->
    connects_at (dial_result v) 0 n = true ->
    incoming v = acks (chunk_count (List.length firmwareData)) ++ next ->
    (exists o cs trailer,
       Runs (V110.sendFirmware firmwareFile) (initial v) o
       /\ writes_of (log (final o)) = size_header firmwareData :: cs ++ [trailer]
       /\ List.concat cs = firmwareData
       /\ trailer = PutUint32 (CRC32_IEEE.checksum content)
       /\ (content = firmwareData ->
           trailer = PutUint32 (CRC32_IEEE.checksum (List.concat cs))))
    /\ (exists o cs trailer,
          Runs (V110.sendFirmware "firmware.bin") (initial changed_file_env) o
          /\ writes_of (log (final o)) = size_header (List.concat cs) :: cs ++ [trailer]
          /\ trailer <> PutUint32 (CRC32_IEEE.checksum (List.concat cs))).
Proof.
  intros v firmwareFile firmwareData answers content n next Hf Ho Hs Hd Hin.
  split.
  - destruct (V110_checksum_sent v firmwareFile firmwareData answers content n next
                Hf Ho Hs Hd Hin) as (o & cs & Hrun & Hw & Hcat).
    exists o, cs, (PutUint32 (CRC32_IEEE.checksum content)).
    repeat split; try assumption.
    intros ->. rewrite Hcat. reflexivity.
  - destruct (V110_checksum_sent changed_file_env "firmware.bin" demo_image
                (block_reads old_image) old_image 2 CRC_OK) as (o & cs & Hrun & Hw & Hcat).
    + reflexivity.
    + reflexivity.
    + unfold block_reads. rewrite stream_of_plain_reads, chunks_concat. reflexivity.
    + reflexivity.
    + reflexivity.
    + exists o, cs, (PutUint32 (CRC32_IEEE.checksum old_image)).
      rewrite Hcat. split; [exact Hrun|]. split; [exact Hw|].
      vm_compute. discriminate.
Qed.

(** *** A dotted quad, as the specification words it *)
Local Open Scope string_scope.

Lemma append_nil_r (s : string) : s ++ "" = s.
Proof. induction s as [|c s IH]; simpl; [reflexivity|]. rewrite IH. reflexivity. Qed.

Lemma append_assoc (a b c : string) : (a ++ b) ++ c = a ++ (b ++ c).
Proof. induction a as [|x a IH]; simpl; [reflexivity|]. rewrite IH. reflexivity. Qed.

Lemma length_append (a b : string) :
  String.length (a ++ b) = String.length a + String.length b.
Proof. induction a as [|x a IH]; simpl; [reflexivity|]. rewrite IH. reflexivity. Qed.

Lemma accept_Matches (r : regex) :
  forall pos s k,
    accept r pos s k = true <->
    exists s1 s2, s = s1 ++ s2 /\ Matches r pos s1 s2
                  /\ k (pos + String.length s1) s2 = true.
Proof.
  induction r as [| |c|lo hi|r1 IH1 r2 IH2|r1 IH1 r2 IH2|r1 IH1|n r1 IH1]; intros pos s k.
  - simpl. rewrite andb_true_iff, Nat.eqb_eq. split.
    + intros [-> Hk]. exists "", s. simpl. auto.
    + intros (s1 & s2 & -> & [-> ->] & Hk). simpl in Hk. auto.
  - simpl. split.
    + destruct s; [|discriminate]. intros Hk. exists "", "".
      simpl. rewrite Nat.add_0_r. auto.
    + intros (s1 & s2 & -> & [-> ->] & Hk). simpl in *. rewrite Nat.add_0_r in Hk. exact Hk.
  - simpl. split.
    + destruct s as [|a s]; [discriminate|].
      rewrite andb_true_iff, Ascii.eqb_eq. intros [-> Hk].
      exists (String c ""), s. simpl. rewrite Nat.add_1_r. auto.
    + intros (s1 & s2 & -> & -> & Hk). simpl in *.
      rewrite Ascii.eqb_refl. rewrite Nat.add_1_r in Hk. exact Hk.
  - simpl. split.
    + destruct s as [|a s]; [discriminate|].
      rewrite andb_true_iff. intros [Hr Hk].
      exists (String a ""), s. simpl. rewrite Nat.add_1_r. eauto.
    + intros (s1 & s2 & -> & (a & -> & Hr) & Hk). simpl in *.
      rewrite Hr. rewrite Nat.add_1_r in Hk. exact Hk.
  - simpl. rewrite IH1. split.
    + intros (u & rest & -> & Hu & Hk). apply IH2 in Hk.
      destruct Hk as (v & s2 & -> & Hv & Hk).
      exists (u ++ v), s2. rewrite append_assoc, length_append, Nat.add_assoc.
      split; [reflexivity|]. split; [|exact Hk].
      exists u, v. auto.
    + intros (s1 & s2 & -> & (u & v & -> & Hu & Hv) & Hk).
      exists u, (v ++ s2). rewrite append_assoc. split; [reflexivity|].
      split; [exact Hu|]. apply IH2. exists v, s2.
      rewrite length_append, Nat.add_assoc in Hk. auto.
  - simpl. rewrite orb_true_iff, IH1, IH2. split.
    + intros [(s1 & s2 & H & Hm & Hk)|(s1 & s2 & H & Hm & Hk)]; exists s1, s2; auto.
    + intros (s1 & s2 & H & [Hm|Hm] & Hk); [left|right]; exists s1, s2; auto.
  - simpl. rewrite orb_true_iff, IH1. split.
    + intros [(s1 & s2 & H & Hm & Hk)|Hk].
      * exists s1, s2; auto.
      * exists "", s. simpl. rewrite Nat.add_0_r. auto.
    + intros (s1 & s2 & H & [Hm | ->] & Hk).
      * left. exists s1, s2; auto.
      * right. simpl in *. subst s. rewrite Nat.add_0_r in Hk. exact Hk.
  - simpl. revert pos s. induction n as [|n IHn]; intros pos s.
    + split.
      * intros Hk. exists "", s. simpl. rewrite Nat.add_0_r. auto.
      * intros (s1 & s2 & -> & -> & Hk). simpl in *. rewrite Nat.add_0_r in Hk. exact Hk.
    + rewrite IH1. split.
      * intros (u & rest & -> & Hu & Hk). apply IHn in Hk.
        destruct Hk as (v & s2 & -> & Hv & Hk).
        exists (u ++ v), s2. rewrite append_assoc, length_append, Nat.add_assoc.
        split; [reflexivity|]. split; [|exact Hk].
        exists u, v. auto.
      * intros (s1 & s2 & -> & (u & v & -> & Hu & Hv) & Hk).
        exists u, (v ++ s2). rewrite append_assoc. split; [reflexivity|].
        split; [exact Hu|]. apply IHn. exists v, s2.
        rewrite length_append, Nat.add_assoc in Hk. auto.
Qed.

(** *** Octets *)
Lemma in_range_spec lo hi a :
  in_range lo hi a = true <-> nat_of_ascii lo <= nat_of_ascii a <= nat_of_ascii hi.
Proof. unfold in_range. rewrite andb_true_iff, !Nat.leb_le. reflexivity. Qed.

Lemma ascii_by_code (a : ascii) (n : nat) : nat_of_ascii a = n -> a = ascii_of_nat n.
Proof. intros <-. symmetry. apply ascii_nat_embedding. Qed.

Ltac codes :=
  repeat match goal with
         | H : in_range _ _ _ = true |- _ => apply in_range_spec in H
         | H : is_digit _ = true |- _ => apply in_range_spec in H
         | H : _ && _ = true |- _ => apply andb_true_iff in H; destruct H
         | H : Nat.leb _ _ = true |- _ => apply Nat.leb_le in H
         end;
  change (nat_of_ascii "0") with 48 in *;
  change (nat_of_ascii "1") with 49 in *;
  change (nat_of_ascii "2") with 50 in *;
  change (nat_of_ascii "4") with 52 in *;
  change (nat_of_ascii "5") with 53 in *;
  change (nat_of_ascii "9") with 57 in *.

Ltac octet_compute :=
  unfold octet_text, decimal_value;
  cbn [String.length list_ascii_of_string fold_left forallb Nat.leb andb].

Lemma octet_text_1 (a : ascii) :
  octet_text (String a "") = is_digit a.
Proof.
  octet_compute. rewrite andb_true_r.
  destruct (is_digit a) eqn:E; [|reflexivity]. cbn [andb].
  apply Nat.leb_le. unfold digit_value. codes. lia.
Qed.

Lemma octet_text_2 (a b : ascii) :
  octet_text (String a (String b "")) = is_digit a && is_digit b.
Proof.
  octet_compute. rewrite andb_true_r.
  destruct (is_digit a) eqn:Ea; [|reflexivity].
  destruct (is_digit b) eqn:Eb; [|reflexivity]. cbn [andb].
  apply Nat.leb_le. unfold digit_value. codes. lia.
Qed.

Lemma octet_text_3 (a b c : ascii) :
  octet_text (String a (String b (String c ""))) = true <->
  is_digit a = true /\ is_digit b = true /\ is_digit c = true
  /\ 100 * digit_value a + 10 * digit_value b + digit_value c <= 255.
Proof.
  octet_compute. rewrite andb_true_r.
  rewrite !andb_true_iff, Nat.leb_le. split.
  - intros [(Ha & Hb & Hc) Hv]. repeat split; try assumption. lia.
  - intros (Ha & Hb & Hc & Hv). repeat split; try assumption. lia.
Qed.

Lemma octet_text_long (a b c d : ascii) (s : string) :
  octet_text (String a (String b (String c (String d s)))) = false.
Proof. reflexivity. Qed.

Ltac one_char :=
  eexists; split; [reflexivity | apply in_range_spec; codes; lia].

Lemma octet_Matches (o : string) (pos : nat) (s2 : string) :
  Matches V120.octet_re pos o s2 <-> octet_text o = true.
Proof.
  unfold V120.octet_re. simpl. split.
  - intros [H|[H|H]].
    + destruct H as (u & v & -> & -> & (u' & v' & -> & -> & (c & -> & Hc))).
      simpl. apply octet_text_3. unfold is_digit, digit_value.
      change (nat_of_ascii "2") with 50. change (nat_of_ascii "5") with 53.
      repeat split; try reflexivity; codes; try (apply in_range_spec; codes; lia); lia.
    + destruct H as (u & v & -> & -> & (u' & v' & -> & (b & -> & Hb) & (c & -> & Hc))).
      simpl. apply octet_text_3. unfold is_digit, digit_value.
      change (nat_of_ascii "2") with 50.
      repeat split; try reflexivity; codes; try (apply in_range_spec; codes; lia); lia.
    + destruct H as (u & v & -> & Hu & (u' & v' & -> & (b & -> & Hb) & Hv')).
      destruct Hu as [(a & -> & Ha)| ->]; destruct Hv' as [(c & -> & Hc)| ->]; simpl.
      * apply octet_text_3. unfold is_digit, digit_value.
        repeat split; codes; try (apply in_range_spec; codes; lia); lia.
      * rewrite octet_text_2. unfold is_digit. apply andb_true_iff.
        split; apply in_range_spec; codes; lia.
      * rewrite octet_text_2. unfold is_digit. apply andb_true_iff.
        split; apply in_range_spec; codes; lia.
      * rewrite octet_text_1. exact Hb.
  - intros H.
    destruct o as [|a [|b [|c [|d o]]]]; try discriminate.
    + rewrite octet_text_1 in H. right. right.
      exists "", (String a ""). split; [reflexivity|]. split; [right; reflexivity|].
      exists (String a ""), "". split; [reflexivity|]. split; [eauto|]. right. reflexivity.
    + rewrite octet_text_2 in H. apply andb_true_iff in H. destruct H as [Ha Hb].
      right. right.
      exists "", (String a (String b "")). split; [reflexivity|]. split; [right; reflexivity|].
      exists (String a ""), (String b ""). split; [reflexivity|]. split; [eauto|].
      left. eauto.
    + apply octet_text_3 in H. destruct H as (Ha & Hb & Hc & Hv).
      unfold digit_value in Hv. codes.
      destruct (Nat.le_gt_cases (nat_of_ascii a) 49) as [Hlow|Hhigh].
      * right. right.
        exists (String a ""), (String b (String c "")).
        split; [reflexivity|]. split; [left; one_char|].
        exists (String b ""), (String c ""). split; [reflexivity|].
        split; [one_char|]. left. one_char.
      * assert (a = "2"%char) as -> by (apply (ascii_by_code a 50); lia).
        change (nat_of_ascii "2") with 50 in Hv.
        destruct (Nat.le_gt_cases (nat_of_ascii b) 52) as [Hb4|Hb5].
        -- right. left.
           exists "2", (String b (String c "")). split; [reflexivity|].
           split; [reflexivity|].
           exists (String b ""), (String c ""). split; [reflexivity|].
           split; one_char.
        -- assert (b = "5"%char) as -> by (apply (ascii_by_code b 53); lia).
           change (nat_of_ascii "5") with 53 in Hv.
           left.
           exists "2", (String "5" (String c "")). split; [reflexivity|].
           split; [reflexivity|].
           exists "5", (String c ""). split; [reflexivity|]. split; [reflexivity|].
           one_char.
Qed.

(** *** Four octets and three dots *)
Lemma octet_dot_Matches (x : string) (pos : nat) (s2 : string) :
  Matches (Cat V120.octet_re (Lit ".")) pos x s2 <->
  exists o, x = o ++ "." /\ octet_text o = true.
Proof.
  cbn [Matches]. split.
  - intros (u & v & -> & Hu & ->). apply octet_Matches in Hu. eauto.
  - intros (o & -> & Ho). exists o, ".". split; [reflexivity|].
    split; [|reflexivity]. apply octet_Matches. exact Ho.
Qed.

Lemma ip_re_Matches (s1 s2 : string) :
  Matches V120.ip_re 0 s1 s2 <->
  s2 = "" /\ exists a b c d,
      s1 = dotted a b c d
      /\ octet_text a = true /\ octet_text b = true
      /\ octet_text c = true /\ octet_text d = true.
Proof.
  unfold V120.ip_re.
  change (Matches (Cat BeginText (Cat (Repeat 3 (Cat V120.octet_re (Lit "."))) (Cat V120.octet_re EndText)))
                  0 s1 s2)
    with (exists u v, s1 = u ++ v /\ (0 = 0 /\ u = "")
            /\ exists u1 v1, v = u1 ++ v1
               /\ (exists x1 y1, u1 = x1 ++ y1
                    /\ Matches (Cat V120.octet_re (Lit ".")) (0 + String.length u) x1 (y1 ++ v1 ++ s2)
                    /\ exists x2 y2, y1 = x2 ++ y2
                    /\ Matches (Cat V120.octet_re (Lit "."))
                               (0 + String.length u + String.length x1) x2 (y2 ++ v1 ++ s2)
                    /\ exists x3 y3, y2 = x3 ++ y3
                    /\ Matches (Cat V120.octet_re (Lit "."))
                               (0 + String.length u + String.length x1 + String.length x2)
                               x3 (y3 ++ v1 ++ s2)
                    /\ y3 = "")
               /\ exists u2 v2, v1 = u2 ++ v2
                  /\ Matches V120.octet_re (0 + String.length u + String.length u1) u2 (v2 ++ s2)
                  /\ (v2 = "" /\ s2 = "")).
  split.
  - intros (u & v & -> & [_ ->] & u1 & v1 & -> & Hrep & u2 & v2 & -> & Hd & -> & ->).
    destruct Hrep as (x1 & y1 & -> & Ha & x2 & y2 & -> & Hb & x3 & y3 & -> & Hc & ->).
    apply octet_dot_Matches in Ha, Hb, Hc. apply octet_Matches in Hd.
    destruct Ha as (a & -> & Ha). destruct Hb as (b & -> & Hb). destruct Hc as (c & -> & Hc).
    split; [reflexivity|]. exists a, b, c, u2.
    split; [|auto].
    unfold dotted. cbn [append]. rewrite !append_nil_r, !append_assoc. reflexivity.
  - intros (-> & a & b & c & d & -> & Ha & Hb & Hc & Hd).
    exists "", (dotted a b c d). split; [reflexivity|]. split; [auto|].
    exists ((a ++ ".") ++ (b ++ ".") ++ (c ++ ".") ++ ""), d.
    split; [unfold dotted; rewrite !append_nil_r, !append_assoc; reflexivity|].
    split.
    + exists (a ++ "."), ((b ++ ".") ++ (c ++ ".") ++ ""). split; [reflexivity|].
      split; [apply octet_dot_Matches; eauto|].
      exists (b ++ "."), ((c ++ ".") ++ ""). split; [reflexivity|].
      split; [apply octet_dot_Matches; eauto|].
      exists (c ++ "."), "". split; [reflexivity|].
      split; [apply octet_dot_Matches; eauto|]. reflexivity.
    + exists d, "". split; [rewrite append_nil_r; reflexivity|].
      split; [apply octet_Matches; exact Hd|]. auto.
Qed.

Lemma search_after_start (r : regex) (s : string) :
  forall pos, search (Cat BeginText r) (S pos) s = false.
Proof.
  induction s as [|c s IH]; intros pos; simpl; [reflexivity|]. apply IH.
Qed.

Lemma isValidIP_dotted (ip : string) :
  V120.isValidIP ip = true <->
  exists a b c d,
    ip = dotted a b c d
    /\ octet_text a = true /\ octet_text b = true
    /\ octet_text c = true /\ octet_text d = true.
Proof.
  unfold V120.isValidIP, MatchString.
  assert (H : search V120.ip_re 0 ip = accept V120.ip_re 0 ip (fun _ _ => true)).
  { destruct ip as [|c ip]; [reflexivity|].
    cbn [search]. unfold V120.ip_re at 2. rewrite search_after_start. apply orb_false_r. }
  rewrite H, accept_Matches. split.
  - intros (s1 & s2 & -> & Hm & _). apply ip_re_Matches in Hm.
    destruct Hm as (-> & a & b & c & d & -> & Hoct).
    exists a, b, c, d. rewrite append_nil_r. auto.
  - intros (a & b & c & d & -> & Hoct).
    exists (dotted a b c d), "". rewrite append_nil_r.
    split; [reflexivity|]. split; [|reflexivity].
    apply ip_re_Matches. split; [reflexivity|]. exists a, b, c, d. auto.
Qed.

(** *** Splitting at the dots *)
Lemma fields_nonempty (s : string) : fields s <> [].
Proof.
  induction s as [|c s IH]; simpl; [discriminate|].
  destruct (Ascii.eqb c "."); [discriminate|].
  destruct (fields s); discriminate.
Qed.

Lemma fields_dotless (a : string) : dotless a = true -> fields a = [a].
Proof.
  unfold dotless. induction a as [|c a IH]; simpl; [reflexivity|].
  rewrite andb_true_iff, negb_true_iff. intros [Hc Ha].
  rewrite Hc, IH by exact Ha. reflexivity.
Qed.

Lemma fields_dot (a rest : string) :
  dotless a = true -> fields (a ++ "." ++ rest) = a :: fields rest.
Proof.
  unfold dotless. induction a as [|c a IH]; simpl; [reflexivity|].
  rewrite andb_true_iff, negb_true_iff. intros [Hc Ha].
  rewrite Hc. simpl in IH. rewrite IH by exact Ha. reflexivity.
Qed.

Lemma fields_dotted (a b c d : string) :
  dotless a = true -> dotless b = true -> dotless c = true -> dotless d = true ->
  fields (dotted a b c d) = [a; b; c; d].
Proof.
  intros Ha Hb Hc Hd. unfold dotted.
  rewrite !fields_dot, fields_dotless by assumption. reflexivity.
Qed.

(** Every text is its fields joined by dots. *)
Lemma fields_join4 (s a b c d : string) :
  fields s = [a; b; c; d] -> s = dotted a b c d.
Proof.
  assert (J : forall s fs, fields s = fs ->
                s = match fs with
                    | [] => s
                    | f :: rest => fold_left (fun acc g => acc ++ "." ++ g) rest f
                    end).
  { intros t. induction t as [|x t IH]; intros fs <-; simpl; [reflexivity|].
    destruct (Ascii.eqb x ".") eqn:Ex.
    - apply Ascii.eqb_eq in Ex. subst x.
      specialize (IH (fields t) eq_refl).
      destruct (fields t) as [|f rest] eqn:Ef; [exfalso; exact (fields_nonempty t Ef)|].
      simpl. rewrite IH at 1. clear.
      revert f. induction rest as [|g rest IHr]; intros f; simpl; [reflexivity|].
      rewrite <- IHr. simpl. reflexivity.
    - specialize (IH (fields t) eq_refl).
      destruct (fields t) as [|f rest] eqn:Ef; [exfalso; exact (fields_nonempty t Ef)|].
      rewrite IH at 1. clear.
      revert f. induction rest as [|g rest IHr]; intros f; simpl; [reflexivity|].
      rewrite <- IHr. reflexivity. }
  intros H. rewrite (J s _ H). simpl. unfold dotted.
  rewrite !append_assoc. reflexivity.
Qed.

Lemma is_digit_not_dot (c : ascii) : is_digit c = true -> negb (Ascii.eqb c ".") = true.
Proof.
  intros H. apply negb_true_iff. destruct (Ascii.eqb c ".") eqn:E; [|reflexivity].
  apply Ascii.eqb_eq in E. subst c. discriminate.
Qed.

Lemma octet_text_dotless (o : string) : octet_text o = true -> dotless o = true.
Proof.
  unfold octet_text, dotless. rewrite !andb_true_iff. intros [[_ H] _].
  rewrite forallb_forall in *. intros c Hc. apply is_digit_not_dot. apply H. exact Hc.
Qed.

(** [isValidIP] accepts exactly the dotted quads. *)
Lemma isValidIP_dotted_quad (ip : string) : V120.isValidIP ip = dotted_quad ip.
Proof.
  apply eq_true_iff_eq. rewrite isValidIP_dotted. unfold dotted_quad. split.
  - intros (a & b & c & d & -> & Ha & Hb & Hc & Hd).
    rewrite fields_dotted by (apply octet_text_dotless; assumption).
    rewrite Ha, Hb, Hc, Hd. reflexivity.
  - destruct (fields ip) as [|a [|b [|c [|d [|e rest]]]]] eqn:E; try discriminate.
    rewrite !andb_true_iff. intros [[[Ha Hb] Hc] Hd].
    exists a, b, c, d. split; [apply fields_join4; exact E|]. auto.
Qed.

Local Close Scope string_scope.

(* ===================================================================== *)
(** ** The command line of version 1.2.0 *)
(* ===================================================================== *)
Lemma Runs_exit {R} (code : Z) (k : Empty_set -> itree goE R) (w : World) :
  Runs (ITree.bind (ITree.trigger (os_Exit code)) k) w
       (Exited code (record (call (os_Exit code)) w)).
Proof. apply Runs_call_Exit. reflexivity. Qed.

Lemma V120_main_no_arguments (Args : list string) (w : World) :
  List.length Args < 2 ->
  Runs (V120.main Args) w
       (Exited 1
          (record (call (os_Exit 1))
             (record (call (fmt_Println
                        [ArgS "       gboot version  or  gboot -v  (to check version)"]))
                (record (call (fmt_Println [ArgS "Usage: gboot <firmware_file> <server_ip>"]))
                   w)))).
Proof.
  intros H. unfold V120.main.
  replace (List.length Args <? 2) with true by (symmetry; apply Nat.ltb_lt; exact H).
  apply Runs_bind_Exited.
  eapply Runs_call; [reflexivity|].
  eapply Runs_call; [reflexivity|].
  apply Runs_exit.
Qed.

Lemma V120_main_version (Args : list string) (w : World) :
  2 <= List.length Args ->
  ((nth 1 Args ""%string =? "version") || (nth 1 Args ""%string =? "-v"))%string = true ->
  Runs (V120.main Args) w
       (Returned tt
          (record (call (fmt_Printf ("Firmware Sender Version: %s" ++ nl)%string [ArgS V120.VERSION]))
             w)).
Proof.
  intros H Hv. unfold V120.main.
  replace (List.length Args <? 2) with false by (symmetry; apply Nat.ltb_ge; exact H).
  eapply Runs_bind; [apply Runs_Ret|].
  cbv zeta. rewrite Hv. apply Runs_trigger. reflexivity.
Qed.

Lemma V120_main_no_address (Args : list string) (w : World) :
  List.length Args = 2 ->
  ((nth 1 Args ""%string =? "version") || (nth 1 Args ""%string =? "-v"))%string = false ->
  Runs (V120.main Args) w
       (Exited 1
          (record (call (os_Exit 1))
             (record (call (fmt_Println [ArgS "Usage: gboot <firmware_file> <server_ip>"]))
                w))).
Proof.
  intros H Hv. unfold V120.main. rewrite H. cbn [Nat.ltb Nat.leb].
  eapply Runs_bind; [apply Runs_Ret|].
  cbv zeta. rewrite Hv.
  apply Runs_bind_Exited.
  eapply Runs_call; [reflexivity|].
  apply Runs_exit.
Qed.

Lemma V120_main_invalid_address (Args : list string) (w : World) :
  3 <= List.length Args ->
  ((nth 1 Args ""%string =? "version") || (nth 1 Args ""%string =? "-v"))%string = false ->
  V120.isValidIP (nth 2 Args ""%string) = false ->
  Runs (V120.main Args) w
       (Exited 1
          (record (call (os_Exit 1))
             (record (said_invalid_address (nth 2 Args ""%string)) w))).
Proof.
  intros H Hv Hip. unfold V120.main.
  replace (List.length Args <? 2) with false by (symmetry; apply Nat.ltb_ge; lia).
  eapply Runs_bind; [apply Runs_Ret|].
  cbv zeta. rewrite Hv.
  replace (List.length Args <? 3) with false by (symmetry; apply Nat.ltb_ge; lia).
  eapply Runs_bind; [apply Runs_Ret|].
  rewrite Hip. cbn [negb].
  apply Runs_bind_Exited.
  eapply Runs_call; [reflexivity|].
  apply Runs_exit.
Qed.

(** With a valid address, [main] hands the file and the address to
    [sendFirmware]. *)
Lemma V120_main_transfers (Args : list string) (w : World) (o : Outcome unit) :
  3 <= List.length Args ->
  ((nth 1 Args ""%string =? "version") || (nth 1 Args ""%string =? "-v"))%string = false ->
  V120.isValidIP (nth 2 Args ""%string) = true ->
  Runs (V120.sendFirmware (nth 1 Args ""%string) (nth 2 Args ""%string)) w o ->
  Runs (V120.main Args) w o.
Proof.
  intros H Hv Hip Hrun. unfold V120.main.
  replace (List.length Args <? 2) with false by (symmetry; apply Nat.ltb_ge; lia).
  eapply Runs_bind; [apply Runs_Ret|].
  cbv zeta. rewrite Hv.
  replace (List.length Args <? 3) with false by (symmetry; apply Nat.ltb_ge; lia).
  eapply Runs_bind; [apply Runs_Ret|].
  rewrite Hip. cbn [negb].
  eapply Runs_bind; [apply Runs_Ret|]. exact Hrun.
Qed.

(** C8. When the address argument is not a dotted quad (four decimal
    numbers from 0 to 255 of at most three digits, separated by dots),
    [main] ends without a single call that loads or opens the firmware
    file, dials or touches a connection: [sendFirmware] is not called.
    When file and address are both given, the run prints the line about the
    invalid address and exits with status 1. *)
Theorem invalid_address_rejected :
  forall (w : World) (Args : list string),
    dotted_quad (nth 2 Args ""%string) = false ->
    exists o l,
      Runs (V120.main Args) w o
      /\ log (final o) = log w ++ l
      /\ count is_ReadFile l = 0
      /\ count is_Open l = 0
      /\ count is_Dial l = 0
      /\ filter is_net l = []
      /\ (3 <= List.length Args ->
          ((nth 1 Args ""%string =? "version") || (nth 1 Args ""%string =? "-v"))%string = false ->
          l = [said_invalid_address (nth 2 Args ""%string); call (os_Exit 1)]
          /\ exists w', o = Exited 1 w').
Proof.
  intros w Args Hbad.
  rewrite <- isValidIP_dotted_quad in Hbad.
  destruct (Nat.lt_ge_cases (List.length Args) 2) as [H2|H2].
  { eexists. eexists. split; [apply V120_main_no_arguments; exact H2|].
    cbn [final log record]. split; [log_eq|].
    do 4 (split; [reflexivity|]). intros H3. lia. }
  destruct ((nth 1 Args ""%string =? "version") || (nth 1 Args ""%string =? "-v"))%string eqn:Hv.
  { eexists. eexists. split; [apply V120_main_version; assumption|].
    cbn [final log record]. split; [log_eq|].
    do 4 (split; [reflexivity|]). intros _ Hf. discriminate. }
  destruct (Nat.lt_ge_cases (List.length Args) 3) as [H3|H3].
  { eexists. eexists. split; [apply V120_main_no_address; [lia | exact Hv]|].
    cbn [final log record]. split; [log_eq|].
    do 4 (split; [reflexivity|]). intros H3'. lia. }
  eexists. eexists. split; [apply V120_main_invalid_address; assumption|].
  cbn [final log record]. split; [log_eq|].
  do 4 (split; [reflexivity|]). intros _ _. split; [reflexivity|]. eexists. reflexivity.
Qed.

(* ===================================================================== *)
(** ** The claims on concrete runs *)
(* ===================================================================== *)
Ltac by_evaluation := vm_compute; reflexivity.

Lemma chunk_loop_partitions_image_witness :
  exists o cs,
    Runs (V110.sendFirmware "firmware.bin") (initial demo_env) o
    /\ writes_of (log (final o)) = size_header demo_image :: cs ++ [PutUint32 demo_crc]
    /\ List.length cs = 2
    /\ List.concat cs = demo_image
    /\ List.length (last cs []) = 55.
Proof.
  destruct (chunk_loop_partitions_image demo_env "firmware.bin" demo_image
              (block_reads demo_image) demo_crc 2 CRC_OK
              ltac:(by_evaluation) ltac:(by_evaluation) ltac:(by_evaluation)
              ltac:(by_evaluation) ltac:(by_evaluation))
    as (o & cs & Hrun & Hw & Hlen & _ & _ & Hcat & Hlast).
  exists o, cs.
  split; [exact Hrun|]. split; [exact Hw|]. split; [exact Hlen|]. split; [exact Hcat|].
  apply Hlast. vm_compute. lia.
Defined.

Lemma refused_ack_ends_transfer_witness :
  exists w',
    Runs (V110.sendFirmware "firmware.bin") (initial nak_env) (Returned tt w')
    /\ writes_of (log w') = size_header demo_image :: firstn 2 (chunks demo_image)
    /\ reads_of (log w') = [3; 3].
Proof.
  destruct (refused_ack_ends_transfer nak_env "firmware.bin" demo_image
              (block_reads demo_image) demo_crc 2 1 (list_byte_of_string "NAK")
              ltac:(by_evaluation) ltac:(by_evaluation) ltac:(by_evaluation)
              ltac:(by_evaluation) ltac:(vm_compute; lia) ltac:(by_evaluation))
    as [Hrefused _].
  destruct (Hrefused ltac:(by_evaluation)) as (w' & Hrun & _ & Hw & Hr).
  exists w'. split; [exact Hrun|]. split; [exact Hw | exact Hr].
Defined.

Lemma checksum_handshake_witness :
  exists w',
    Runs (V110.sendFirmware "firmware.bin") (initial demo_env) (Returned tt w')
    /\ writes_of (log w') = size_header demo_image :: chunks demo_image ++ [PutUint32 demo_crc].
Proof.
  destruct (checksum_handshake demo_env "firmware.bin" demo_image
              (block_reads demo_image) demo_crc 2 CRC_OK
              ltac:(by_evaluation) ltac:(by_evaluation) ltac:(by_evaluation)
              ltac:(by_evaluation) ltac:(by_evaluation) ltac:(by_evaluation))
    as (w' & Hrun & Hlog & Hw & _).
  exists w'. split; [exact Hrun | exact Hw].
Defined.

Lemma calculateCRC32_partition_independent_witness :
  Runs (calculateCRC32 "firmware.bin") (initial demo_env)
       (Returned (CRC32_IEEE.checksum demo_image, None)
                 (after_checksum "firmware.bin" (block_reads demo_image) (initial demo_env))).
Proof.
  apply (calculateCRC32_partition_independent (initial demo_env) "firmware.bin"
           (block_reads demo_image) demo_image
           ltac:(by_evaluation) ltac:(by_evaluation)).
Defined.

Lemma input_failure_no_network_witness :
  exists w',
    Runs (V110.sendFirmware "missing.bin") (initial demo_env) (Returned tt w')
    /\ filter is_net (log w') = []
    /\ log w' = [call (os_ReadFile "missing.bin"); said_not_found "missing.bin"].
Proof.
  destruct (input_failure_no_network demo_env "missing.bin" ltac:(by_evaluation))
    as (w' & Hrun & Hnet & _ & _ & Hlog & _).
  exists w'. split; [exact Hrun|]. split; [exact Hnet|].
  apply Hlog. by_evaluation.
Defined.

Lemma size_header_first_witness :
  exists o pre header rest,
    Runs (V110.sendFirmware "firmware.bin") (initial demo_env) o
    /\ log (final o) = pre ++ call (Conn_Write V110_conn header) :: rest
    /\ writes_of pre = []
    /\ BigEndian_Uint32 header = 311%Z.
Proof.
  destruct (size_header_first demo_env "firmware.bin" demo_image
              (block_reads demo_image) demo_crc 2
              ltac:(by_evaluation) ltac:(by_evaluation) ltac:(by_evaluation)
              ltac:(by_evaluation) ltac:(by_evaluation))
    as (o & pre & header & p & rest & Hrun & Hlog & Hw & _ & _ & Hsize).
  exists o, pre, header. eexists.
  split; [exact Hrun|]. split; [exact Hlog|]. split; [exact Hw | exact Hsize].
Defined.

Lemma connect_retries_without_limit_witness :
  exists o,
    Runs (V110.sendFirmware "firmware.bin") (initial demo_env) o
    /\ count is_Dial (log (final o)) = 3
    /\ sleeps_of (log (final o)) = [3000000000; 3000000000]%Z.
Proof.
  destruct (connect_retries_without_limit demo_env "firmware.bin" demo_image
              (block_reads demo_image) demo_crc
              ltac:(by_evaluation) ltac:(by_evaluation) ltac:(by_evaluation))
    as [Hconnects _].
  destruct (Hconnects 2 ltac:(by_evaluation)) as (o & rest & m & Hrun & _ & Hd & Hs & _).
  exists o. split; [exact Hrun|]. split; [exact Hd | exact Hs].
Defined.

Lemma invalid_address_rejected_witness :
  exists o,
    Runs (V120.main ["gboot"; "firmware.bin"; "999.1.1.1"]%string) (initial demo_env) o
    /\ log (final o) = [said_invalid_address "999.1.1.1"; call (os_Exit 1)].
Proof.
  destruct (invalid_address_rejected (initial demo_env)
              ["gboot"; "firmware.bin"; "999.1.1.1"]%string ltac:(by_evaluation))
    as (o & l & Hrun & Hlog & _ & _ & _ & _ & Hl).
  destruct (Hl ltac:(vm_compute; lia) ltac:(by_evaluation)) as [El _].
  exists o. split; [exact Hrun|]. rewrite Hlog, El. reflexivity.
Defined.

Lemma checksum_is_of_second_read_witness :
  exists o cs,
    Runs (V110.sendFirmware "firmware.bin") (initial demo_env) o
    /\ writes_of (log (final o))
       = size_header demo_image :: cs ++ [PutUint32 (CRC32_IEEE.checksum (List.concat cs))].
Proof.
  destruct (checksum_is_of_second_read demo_env "firmware.bin" demo_image
              (block_reads demo_image) demo_image 2 CRC_OK
              ltac:(by_evaluation) ltac:(by_evaluation) ltac:(by_evaluation)
              ltac:(by_evaluation) ltac:(by_evaluation))
    as [(o & cs & trailer & Hrun & Hw & _ & _ & Hsame) _].
  exists o, cs. split; [exact Hrun|].
  rewrite <- (Hsame eq_refl). exact Hw.
Defined.

Lemma write_results_ignored_witness :
  Runs (V110.sendFirmware "firmware.bin") (initial (with_write_result broken_pipe demo_env))
       (outcome_map (set_env (with_write_result broken_pipe demo_env)) demo_outcome)
  /\ log (final (outcome_map (set_env (with_write_result broken_pipe demo_env)) demo_outcome))
     = log (final demo_outcome).
Proof.
  apply (proj1 (write_results_ignored demo_env broken_pipe "firmware.bin") demo_outcome).
  exists 100. by_evaluation.
Defined.
